(** * PyAppleSerialChecker: a shallow embedding and its checked properties

    The script [PyAppleSerialChecker.py] is one sequential program that talks
    to three outside parties: the token endpoint ([get_auth_token]), the
    captcha endpoint together with the OCR reader ([fetch_captcha],
    [reader.readtext]) and the coverage endpoint ([requests.post]).

    The embedding has three layers:
    - [Text]: byte strings, the [in] test on them, [str.strip] and the
      fragment of [re] the four patterns of the script are written in;
    - [Backoff]: [exponential_backoff] over the rationals;
    - [Checker]: the [for]/[while] loops of the script as a machine that
      consumes one answer of the outside world per transition;
    - [Colors]: the class of that name, with [getattr] and [dir] on it.

    Response bodies are byte strings ([string], one [ascii] per byte).  On
    7-bit bodies [bytes.decode("utf-8", errors="ignore")] is the identity and
    the classes [\s], [\w], [\d] of [re] are the ASCII ones given below. *)

From Stdlib Require Import List String Ascii Bool Arith ZArith Lia.
From Stdlib Require QArith Qminmax Qpower Lqa.
Import ListNotations.

Module Text.

Local Open Scope string_scope.

(** The double quote, as a character and as a one-character string. *)
Definition dquote_char : ascii := ascii_of_nat 34.
Definition dquote : string := String dquote_char EmptyString.

(** [needle in haystack] on [bytes] and on [str]: some suffix of the haystack
    starts with the needle. *)
Fixpoint contains (needle haystack : string) : bool :=
  match haystack with
  | EmptyString => prefix needle haystack
  | String _ rest => prefix needle haystack || contains needle rest
  end.

(** [Py_UNICODE_ISSPACE] on code points below 128: TAB, LF, VT, FF, CR, the
    separators FS, GS, RS, US and the space.  Both [\s] and [str.strip()]
    use it. *)
Definition is_space (c : ascii) : bool :=
  let n := nat_of_ascii c in
  ((9 <=? n) && (n <=? 13) || (28 <=? n) && (n <=? 32))%nat.

Definition is_digit (c : ascii) : bool :=
  let n := nat_of_ascii c in ((48 <=? n) && (n <=? 57))%nat.

Definition in_range (lo hi c : ascii) : bool :=
  ((nat_of_ascii lo <=? nat_of_ascii c) && (nat_of_ascii c <=? nat_of_ascii hi))%nat.

(** [\w] on code points below 128: letters, digits and the underscore. *)
Definition is_word (c : ascii) : bool :=
  in_range "a" "z" c || in_range "A" "Z" c || is_digit c
  || Ascii.eqb c "_".

(** [str.strip()]: leading and trailing white space removed. *)
Fixpoint lstrip (s : string) : string :=
  match s with
  | String c rest => if is_space c then lstrip rest else s
  | EmptyString => EmptyString
  end.

Fixpoint rstrip (s : string) : string :=
  match s with
  | String c rest =>
      match rstrip rest with
      | EmptyString => if is_space c then EmptyString else String c EmptyString
      | kept => String c kept
      end
  | EmptyString => EmptyString
  end.

Definition strip (s : string) : string := rstrip (lstrip s).

(** ** The fragment of [re] used by the script

    Each of the four patterns is a concatenation of single-character classes
    under a greedy quantifier.  The parentheses of the patterns only delimit
    group 1, which the script never reads ([get_match_or_default] takes
    [group(0)]), so a pattern is the list of its quantified classes. *)
Inductive charclass : Type :=
| Lit (c : ascii)              (* the character itself *)
| Space                        (* \s *)
| Word                         (* \w *)
| Digit                        (* \d *)
| Range (lo hi : ascii)        (* [lo-hi] *)
| Except (c : ascii).          (* [^c] *)

Definition accepts (k : charclass) (c : ascii) : bool :=
  match k with
  | Lit d => Ascii.eqb c d
  | Space => is_space c
  | Word => is_word c
  | Digit => is_digit c
  | Range lo hi => in_range lo hi c
  | Except d => negb (Ascii.eqb c d)
  end.

(** A class repeated between [lo] and [hi] times ([hi = None]: unbounded),
    as many times as possible first. *)
Record atom : Type := Atom { cls : charclass; lo : nat; hi : option nat }.

Definition regex : Type := list atom.

Definition one (k : charclass) : atom := Atom k 1 (Some 1).      (* k      *)
Definition star (k : charclass) : atom := Atom k 0 None.         (* k*     *)
Definition plus (k : charclass) : atom := Atom k 1 None.         (* k+     *)
Definition times (k : charclass) (m n : nat) : atom := Atom k m (Some n). (* k{m,n} *)

Fixpoint lit (s : string) : regex :=
  match s with
  | EmptyString => []
  | String c rest => one (Lit c) :: lit rest
  end.

Definition may_repeat (a : atom) (done : nat) : bool :=
  match hi a with
  | None => true
  | Some h => (done <? h)%nat
  end.

(** [match_here re s]: the text matched by [re] at the very start of [s], with
    the backtracking order of [re]: every quantifier first takes one more
    character and gives it back only when the rest of the pattern fails. *)
Fixpoint match_here (re : regex) (s : string) {struct re} : option string :=
  match re with
  | [] => Some EmptyString
  | a :: re' =>
      (fix rep (done : nat) (s : string) {struct s} : option string :=
         let stop := if (lo a <=? done)%nat then match_here re' s else None in
         match s with
         | String c rest =>
             if may_repeat a done && accepts (cls a) c then
               match rep (S done) rest with
               | Some m => Some (String c m)
               | None => stop
               end
             else stop
         | EmptyString => stop
         end) 0 s
  end.

(** [re.search(re, s)]: the match at the leftmost position that has one;
    the result is [group(0)], [None] when no position matches. *)
Fixpoint search (re : regex) (s : string) : option string :=
  match match_here re s with
  | Some m => Some m
  | None =>
      match s with
      | EmptyString => None
      | String _ rest => search re rest
      end
  end.

(** A body made of bytes below 128 only. *)
Fixpoint seven_bit (content : string) : bool :=
  match content with
  | EmptyString => true
  | String c rest => (nat_of_ascii c <? 128)%nat && seven_bit rest
  end.

(** [response.content.decode("utf-8", errors="ignore")] on a [seven_bit]
    body, where every byte decodes to itself.  A body with a byte from 128
    on is outside the text layer: there the decoder of the script yields
    code points that [ascii] does not hold and that the Unicode classes of
    [re] sort differently, and this function, which leaves those bytes out,
    is not that decoder.  Whatever is stated of the decoded text below is
    stated of [seven_bit] bodies. *)
Fixpoint decode (content : string) : string :=
  match content with
  | EmptyString => EmptyString
  | String c rest =>
      if (nat_of_ascii c <? 128)%nat then String c (decode rest) else decode rest
  end.

End Text.

(** * [exponential_backoff]

    [wait_time = min(60, 2**retry_attempt)] and
    [random_wait = random.uniform(0.5, 1.5) * wait_time], over the rationals:
    the floats of the script are read as the numbers they stand for.
    For an attempt from 0 on [2**n] is an integer.  For a negative one it is
    the float [1 / 2 ^ (-n)], exact down to the smallest float [2 ^ (-1074)];
    below that the float is [0.0].  The product with the jitter factor is
    the exact one, which the float product rounds to a float between the
    same bounds whenever the bounds are floats. *)
Module Backoff.

Import QArith Qminmax Qpower.
Local Open Scope Q_scope.

Definition wait_time (retry_attempt : Z) : Q :=
  if (retry_attempt <? -1074)%Z then 0 else Qmin 60 (2 ^ retry_attempt).

(** [random.uniform(a, b)] is [a + (b - a) * random()]; [u] is the draw of
    [random()], a number of the interval from 0 to 1. *)
Definition uniform (a b u : Q) : Q := a + (b - a) * u.

Definition random_wait (retry_attempt : Z) (u : Q) : Q :=
  uniform 0.5 1.5 u * wait_time retry_attempt.

(** The number of seconds [exponential_backoff retry_attempt] hands to
    [time.sleep] when [random()] draws [u]. *)
Definition exponential_backoff (retry_attempt : Z) (u : Q) : Q :=
  random_wait retry_attempt u.

End Backoff.

(** * The script *)
Module Checker.

Import Text.
Local Open Scope string_scope.

(** ** class Head *)
Module Head.
Definition serial_number : string := "Serial Number".
Definition product_name : string := "Product Name".
Definition purchase_date : string := "Purchase Date".
Definition coverage_expiry : string := "Coverage Expiry".
Definition status : string := "Status".
Definition get_headers : list string :=
  [serial_number; product_name; purchase_date; coverage_expiry; status].
Module Status.
Definition not_found : string := "NOT_FOUND".
Definition valid : string := "VALID".
End Status.
End Head.

(** ** The input sheet and [load_serial_numbers]

    [df] is the frame [pd.read_excel(filename)] has returned: the list of
    its columns, each a name and its cells.  [None] is a missing value of
    the frame, what [dropna] drops; which cells of the sheet come back
    missing (the empty ones, and the texts the reader takes for NA, such as
    [NA], [N/A], [null] and [None]) is decided by [read_excel], before this
    point.  A value is written as the text it prints as, a numeric cell
    included, which the frame holds as a number. *)
Definition column : Type := (string * list (option string))%type.
Definition dataframe : Type := list column.

Definition lower_char (c : ascii) : ascii :=
  if in_range "A" "Z" c then ascii_of_nat (nat_of_ascii c + 32) else c.

Fixpoint lower (s : string) : string :=
  match s with
  | EmptyString => EmptyString
  | String c rest => String (lower_char c) (lower rest)
  end.

Fixpoint dropna (cells : list (option string)) : list string :=
  match cells with
  | [] => []
  | Some v :: rest => v :: dropna rest
  | None :: rest => dropna rest
  end.

Definition load_serial_numbers (df : dataframe) : list string :=
  let serial_column := filter (fun col => contains "serial" (lower (fst col))) df in
  match serial_column with
  | [] => []
  | col :: _ => dropna (snd col)
  end.

(** ** The record written per serial number

    [RESULT_ENTRY] is a dict with the five keys of [Head], in that order;
    [pd.DataFrame([RESULT_ENTRY])] is the one-row frame of its values. *)
Record ResultRecord : Type := {
  serial_number : string;
  product_name : string;
  purchase_date : string;
  coverage_expiry : string;
  status : string }.

Definition row : Type := list string.
Definition sheet : Type := list row.

Definition row_of (e : ResultRecord) : row :=
  [serial_number e; product_name e; purchase_date e; coverage_expiry e; status e].

(** ** The markers tested on the body of the coverage response *)
Definition RATE_LIMIT_MARKER : string := "process your request.".
Definition CAPTCHA_MISMATCH_MARKER : string := "The code you entered does not match".
Definition INVALID_SERIAL_MARKER : string := "Please enter a valid serial number.".
Definition PURCHASE_DATE_MARKER : string := "Sign in to update purchase date".
Definition BENEFITS_MARKER : string := "Your coverage includes the following benefits".
Definition EXPIRED_MARKER : string := "Coverage Expired".
Definition CANNOT_PROCESS_MARKER : string := "We cannot process your request at this time.".
Definition COVERAGE_DETAIL_MARKER : string := "Apple coverage for your product".

(** The marker tested on the body of the captcha response. *)
Definition CAPTCHA_BUSY_MARKER : string := "but we are currently unable to process".

(** The branch of the [if] chain of lines 388 to 520 a body takes. *)
Inductive QueryOutcome : Type :=
| RateLimited
| CaptchaInvalid
| IdentifierInvalid
| PurchaseDateUnverifiable
| CoverageFound
| RequestRejected
| CoverageDetail
| Unknown.

Definition classify (content : string) : QueryOutcome :=
  if contains RATE_LIMIT_MARKER content then RateLimited
  else if contains CAPTCHA_MISMATCH_MARKER content then CaptchaInvalid
  else if contains INVALID_SERIAL_MARKER content then IdentifierInvalid
  else if contains PURCHASE_DATE_MARKER content then PurchaseDateUnverifiable
  else if contains BENEFITS_MARKER content || contains EXPIRED_MARKER content
       then CoverageFound
  else if contains CANNOT_PROCESS_MARKER content then RequestRejected
  else if contains COVERAGE_DETAIL_MARKER content then CoverageDetail
  else Unknown.

(** ** Field extraction on the coverage-detail branch *)

(** The pattern [MacBook\s+[^\)]*\s*\([^\)]*\)]. *)
Definition PRODUCT_NAME_PATTERN : regex :=
  (lit "MacBook" ++ [plus Space; star (Except ")"); star Space]
   ++ lit "(" ++ [star (Except ")")] ++ lit ")")%list.

(** The pattern [([A-Z]{1,2}\d{10})]. *)
Definition SERIAL_NUMBER_PATTERN : regex :=
  [times (Range "A" "Z") 1 2; times Digit 10 10].

(** The pattern [(\w+\s\d{4})]. *)
Definition PURCHASE_DATE_PATTERN : regex :=
  [plus Word; one Space; times Digit 4 4].

(** The pattern [Expires on\s*:\s*([^Q]+)], where [Q] stands for the double
    quote. *)
Definition COVERAGE_EXPIRY_PATTERN : regex :=
  (lit "Expires on" ++ [star Space] ++ lit ":"
   ++ [star Space; plus (Except dquote_char)])%list.

(** [match.group(0).strip() if match else default]; a match object is
    represented by its [group(0)]. *)
Definition get_match_or_default (m : option string) (default : string) : string :=
  match m with
  | Some group0 => strip group0
  | None => default
  end.

(** A record whose three data fields are ["N/A"]. *)
Definition plain_entry (serial status : string) : ResultRecord :=
  {| serial_number := serial;
     product_name := "N/A";
     purchase_date := "N/A";
     coverage_expiry := "N/A";
     status := status |}.

(** Lines 467 to 508.  [serial_number_match] is computed and never read. *)
Definition detail_entry (serial content : string) : ResultRecord :=
  let decoded_data := decode content in
  let product_name_match := search PRODUCT_NAME_PATTERN decoded_data in
  let serial_number_match := search SERIAL_NUMBER_PATTERN decoded_data in
  let purchase_date := search PURCHASE_DATE_PATTERN decoded_data in
  let coverage_expiry := search COVERAGE_EXPIRY_PATTERN decoded_data in
  {| serial_number := serial;
     product_name := get_match_or_default product_name_match Head.Status.not_found;
     purchase_date := get_match_or_default purchase_date Head.Status.not_found;
     coverage_expiry := get_match_or_default coverage_expiry Head.Status.not_found;
     status := Head.Status.valid |}.

(** [RESULT_ENTRY] as the chain leaves it: [None] on the two branches that
    [continue] the [while] loop, the record of the branch on those that
    [break]. *)
Definition RESULT_ENTRY (serial content : string) : option ResultRecord :=
  match classify content with
  | RateLimited => None
  | CaptchaInvalid => None
  | IdentifierInvalid => Some (plain_entry serial "Invalid")
  | PurchaseDateUnverifiable => Some (plain_entry serial "Cannot verify purchase date")
  | CoverageFound => Some (plain_entry serial "Fully valid")
  | RequestRejected => Some (plain_entry serial "Cannot process request")
  | CoverageDetail => Some (detail_entry serial content)
  | Unknown => Some (plain_entry serial "Unknown")
  end.

(** ** The outside world

    One answer per call the script makes.  [get_auth_token] returns the value
    of the [X-APPLE-AUTH-TOKEN] header, or [None] when the header is missing.
    A captcha exchange is the body [fetch_captcha] returns, the value under
    the key [binaryValue] of the JSON object it holds (when the key is there)
    and the list [reader.readtext] produces for that image.  A coverage
    exchange is the body of the POST.

    These three are the exchanges in which every library call returns.  Any
    of the calls may raise instead: [requests.get] and [requests.post] on a
    network failure or a timeout, [json.loads] on a captcha body that is
    neither the busy page nor JSON, [base64.b64decode] and [reader.readtext]
    on what is no image.  The script catches nothing but the [KeyError] of
    the missing header, so such an exchange is the fourth answer, [Raised],
    with the name of the exception.  The write of a record to the output
    file is no exchange of its own: it is part of the transition that
    follows the coverage exchange, and it is taken to succeed. *)
Record detection : Type := {
  text : string;                     (* result[i][1] *)
  confidence : QArith_base.Q }.      (* result[i][2] *)

Record captcha_response : Type := {
  captcha_content : string;
  binaryValue : option string;
  readtext : list detection }.

Inductive answer : Type :=
| TokenReply (header : option string)
| CaptchaReply (response : captcha_response)
| CoverageReply (content : string)
| Raised (error : string).

(** One pass of the body of [for attempt in range(3)]: [Some CAPTCHA_ANSWER]
    when the pass reaches [break], [None] when it ends in [continue] or runs
    to its end with nothing detected. *)
Definition captcha_attempt (response : captcha_response) : option string :=
  if contains CAPTCHA_BUSY_MARKER (captcha_content response) then None
  else match binaryValue response with
       | Some _ =>
           match readtext response with
           | first :: _ => Some (text first)
           | [] => None
           end
       | None => None
       end.

(** ** The machine

    A control point is a call the script is waiting on, or its end. *)
Inductive control : Type :=
| AcquireToken                           (* l.323  get_auth_token()            *)
| FetchCaptcha (attempt : nat)           (* l.335  fetch_captcha(auth_token)   *)
| RefreshAfterAttempts                   (* l.372  get_auth_token()            *)
| SubmitQuery (CAPTCHA_ANSWER : string)  (* l.386  requests.post(...)          *)
| RefreshAfterInvalid                    (* l.409  get_auth_token()            *)
| Exited (exit_code : Z)                 (* sys.exit(exit_code)                *)
| Finished                               (* the for loop has run out           *)
| Crashed (error : string).              (* an exception nothing catches       *)

(** The variables of the script.  [current] is the loop variable
    [serial_number] and [pending] the serial numbers the [for] loop has not
    reached yet; [output] is Sheet1 of the output file, [None] while the file
    does not exist.  A variable that is not bound yet holds [EmptyString],
    [None] or [0]. *)
Record state : Type := {
  at_ : control;
  current : string;
  pending : list string;
  auth_token : option string;
  CAPTCHA_INVALID_COUNT : nat;
  output : option sheet }.

Definition goto (c : control) (st : state) : state :=
  {| at_ := c; current := current st; pending := pending st;
     auth_token := auth_token st;
     CAPTCHA_INVALID_COUNT := CAPTCHA_INVALID_COUNT st;
     output := output st |}.

Definition set_auth_token (t : option string) (st : state) : state :=
  {| at_ := at_ st; current := current st; pending := pending st;
     auth_token := t;
     CAPTCHA_INVALID_COUNT := CAPTCHA_INVALID_COUNT st;
     output := output st |}.

Definition set_count (n : nat) (st : state) : state :=
  {| at_ := at_ st; current := current st; pending := pending st;
     auth_token := auth_token st;
     CAPTCHA_INVALID_COUNT := n;
     output := output st |}.

(** Lines 523 to 529: the row is written at [startrow = max_row], the first
    row below those of the sheet. *)
Definition append_row (r : row) (o : option sheet) : option sheet :=
  match o with
  | Some rows => Some (rows ++ [r])%list
  | None => None
  end.

(** The end of one iteration of the [for] loop: the record is appended and
    the loop takes the next serial number, or ends. *)
Definition next_serial (e : ResultRecord) (st : state) : state :=
  match pending st with
  | [] =>
      {| at_ := Finished; current := current st; pending := [];
         auth_token := auth_token st;
         CAPTCHA_INVALID_COUNT := CAPTCHA_INVALID_COUNT st;
         output := append_row (row_of e) (output st) |}
  | s :: rest =>
      {| at_ := AcquireToken; current := s; pending := rest;
         auth_token := auth_token st;
         CAPTCHA_INVALID_COUNT := CAPTCHA_INVALID_COUNT st;
         output := append_row (row_of e) (output st) |}
  end.

(** [auth_token = get_auth_token(); if auth_token is None: sys.exit(0)],
    followed by [after] when the token is there. *)
Definition acquire (header : option string) (after : state -> state)
    (st : state) : state :=
  match header with
  | None => goto (Exited 0) (set_auth_token None st)
  | Some t => after (set_auth_token (Some t) st)
  end.

(** One transition: the script runs from the call it is waiting on, with the
    answer to that call, up to its next call or its end.  [None]: the answer
    is not one to the call the script is waiting on.  [exponential_backoff(1)]
    only sleeps: it leaves every variable as it is.  An exception ends the
    script where it stands, with the variables as they are and nothing
    written for the serial number in hand. *)
Definition step (st : state) (a : answer) : option state :=
  match at_ st, a with
  | AcquireToken, TokenReply header =>
      Some (acquire header (fun st => goto (FetchCaptcha 0) (set_count 0 st)) st)
  | FetchCaptcha attempt, CaptchaReply response =>
      match captcha_attempt response with
      | Some CAPTCHA_ANSWER => Some (goto (SubmitQuery CAPTCHA_ANSWER) st)
      | None =>
          if (S attempt <? 3)%nat
          then Some (goto (FetchCaptcha (S attempt)) st)
          else Some (goto RefreshAfterAttempts st)
      end
  | RefreshAfterAttempts, TokenReply header =>
      Some (acquire header (goto (FetchCaptcha 0)) st)
  | SubmitQuery _, CoverageReply content =>
      match classify content with
      | RateLimited => Some (goto (FetchCaptcha 0) st)
      | CaptchaInvalid =>
          let st := set_count (CAPTCHA_INVALID_COUNT st + 1) st in
          if (6 <=? CAPTCHA_INVALID_COUNT st)%nat
          then Some (goto RefreshAfterInvalid st)
          else Some (goto (FetchCaptcha 0) st)
      | _ =>
          match RESULT_ENTRY (current st) content with
          | Some e => Some (next_serial e st)
          | None => None
          end
      end
  | RefreshAfterInvalid, TokenReply header =>
      Some (acquire header (fun st => goto (FetchCaptcha 0) (set_count 0 st)) st)
  | AcquireToken, Raised error
  | FetchCaptcha _, Raised error
  | RefreshAfterAttempts, Raised error
  | SubmitQuery _, Raised error
  | RefreshAfterInvalid, Raised error => Some (goto (Crashed error) st)
  | _, _ => None
  end.

(** The script run against the answers [answers], in the order they come. *)
Fixpoint run (st : state) (answers : list answer) : option state :=
  match answers with
  | [] => Some st
  | a :: rest =>
      match step st a with
      | Some st' => run st' rest
      | None => None
      end
  end.

(** Lines 298 to 318: with no serial number the script exits before it asks
    for the output file; otherwise the file is created with its header row
    unless it exists. *)
Definition main (serial_numbers : list string) (file : option sheet) : state :=
  match serial_numbers with
  | [] =>
      {| at_ := Exited 0; current := EmptyString; pending := [];
         auth_token := None; CAPTCHA_INVALID_COUNT := 0; output := file |}
  | s :: rest =>
      {| at_ := AcquireToken; current := s; pending := rest;
         auth_token := None; CAPTCHA_INVALID_COUNT := 0;
         output := match file with
                   | Some rows => Some rows
                   | None => Some [Head.get_headers]
                   end |}
  end.

(** The exit status of the process once it has ended: the argument of
    [sys.exit], 0 at the end of the script, 1 after the traceback of an
    exception nothing catches. *)
Definition exit_status (st : state) : option Z :=
  match at_ st with
  | Exited code => Some code
  | Finished => Some 0%Z
  | Crashed _ => Some 1%Z
  | _ => None
  end.

(** ** Notions the properties are stated with *)

(** The classification as the specification words it: an ordered list of
    rules, each a set of alternative markers and the outcome they stand for;
    the first rule one of whose markers occurs in the body wins, and a body
    with no marker is [Unknown].  It is compared with [classify] below. *)
Definition marker_rule : Type := (list string * QueryOutcome)%type.

Definition priority_order : list marker_rule :=
  [ ([RATE_LIMIT_MARKER], RateLimited);
    ([CAPTCHA_MISMATCH_MARKER], CaptchaInvalid);
    ([INVALID_SERIAL_MARKER], IdentifierInvalid);
    ([PURCHASE_DATE_MARKER], PurchaseDateUnverifiable);
    ([BENEFITS_MARKER; EXPIRED_MARKER], CoverageFound);
    ([CANNOT_PROCESS_MARKER], RequestRejected);
    ([COVERAGE_DETAIL_MARKER], CoverageDetail) ].

Fixpoint first_match (rules : list marker_rule) (content : string) : QueryOutcome :=
  match rules with
  | [] => Unknown
  | (markers, outcome) :: rest =>
      if existsb (fun m => contains m content) markers then outcome
      else first_match rest content
  end.

(** The outcomes that end the handling of a serial number with a record. *)
Definition terminal (o : QueryOutcome) : bool :=
  match o with
  | RateLimited | CaptchaInvalid => false
  | _ => true
  end.

(** The number of captcha exchanges among [answers] since the last token
    exchange, starting from [n]: the fetches made on the token in use. *)
Fixpoint fetches_on_token (n : nat) (answers : list answer) : nat :=
  match answers with
  | [] => n
  | TokenReply _ :: rest => fetches_on_token 0 rest
  | CaptchaReply _ :: rest => fetches_on_token (S n) rest
  | CoverageReply _ :: rest => fetches_on_token n rest
  | Raised _ :: rest => fetches_on_token n rest
  end.

(** The number of captcha exchanges at the end of [answers] with no other
    exchange between them, starting from [n]: the fetches of the current pass
    through [for attempt in range(3)]. *)
Fixpoint fetches_in_a_row (n : nat) (answers : list answer) : nat :=
  match answers with
  | [] => n
  | CaptchaReply _ :: rest => fetches_in_a_row (S n) rest
  | _ :: rest => fetches_in_a_row 0 rest
  end.

(** The sheet [after] is the sheet [before] with the rows of [records] added
    below it, in their order, and nothing else changed. *)
Definition appended (before after : option sheet) (records : list ResultRecord) : Prop :=
  after = option_map (fun rows => (rows ++ map row_of records)%list) before.

(** An outside world in which every serial number is settled at once: the
    token is issued, the first captcha is read as [solution] and the coverage
    body is the one of [contents] for that serial number. *)
Definition IMAGE : string := "iVBORw0KGgo=".

Definition IMAGE_BODY : string :=
  "{" ++ dquote ++ "binaryValue" ++ dquote ++ ": "
  ++ dquote ++ IMAGE ++ dquote ++ "}".

Definition solved (solution : detection) : captcha_response :=
  {| captcha_content := IMAGE_BODY;
     binaryValue := Some IMAGE;
     readtext := [solution] |}.

(** Rounds of a captcha exchange and the coverage exchange that follows
    it. *)
Definition round (pair : captcha_response * string) : list answer :=
  [CaptchaReply (fst pair); CoverageReply (snd pair)].

Definition rounds_of (pairs : list (captcha_response * string)) : list answer :=
  flat_map round pairs.

Definition settle (token : string) (solution : detection) (content : string)
    : list answer :=
  [TokenReply (Some token); CaptchaReply (solved solution); CoverageReply content].

Definition settle_all (token : string) (solution : detection)
    (contents : list string) : list answer :=
  flat_map (settle token solution) contents.

(** One of the answers is an exception. *)
Definition is_raised (a : answer) : bool :=
  match a with
  | Raised _ => true
  | _ => false
  end.

Definition raised (answers : list answer) : bool := existsb is_raised answers.

(** The script has ended. *)
Definition halted (st : state) : bool :=
  match at_ st with
  | Exited _ | Finished | Crashed _ => true
  | _ => false
  end.

(** The serial numbers that have no record yet: the one being handled and
    those after it, none once the loop has run out. *)
Definition unprocessed (st : state) : list string :=
  match at_ st with
  | Finished => []
  | _ => current st :: pending st
  end.

(** The records written so far are those of the serial numbers the loop has
    left behind, in their order. *)
Definition written (serial_numbers : list string) (base : option sheet)
    (st : state) : Prop :=
  exists records,
    appended base (output st) records
    /\ serial_numbers = (map serial_number records ++ unprocessed st)%list.

(** The bounds the two counters keep at each control point; [n] is the
    number of captcha exchanges in a row so far. *)
Definition counters_ok (st : state) (n : nat) : Prop :=
  match at_ st with
  | FetchCaptcha attempt =>
      attempt < 3 /\ n = attempt /\ CAPTCHA_INVALID_COUNT st < 6
  | SubmitQuery _ => 1 <= n <= 3 /\ CAPTCHA_INVALID_COUNT st < 6
  | RefreshAfterAttempts => n = 3 /\ CAPTCHA_INVALID_COUNT st < 6
  | RefreshAfterInvalid => n = 0 /\ CAPTCHA_INVALID_COUNT st = 6
  | AcquireToken | Finished => n = 0 /\ CAPTCHA_INVALID_COUNT st < 6
  | Exited _ | Crashed _ => n = 0 /\ CAPTCHA_INVALID_COUNT st <= 6
  end.

(** ** Sample inputs *)

Definition SERIAL_1 : string := "XX1234567890".
Definition SERIAL_2 : string := "YY0987654321".

Definition sample_solution : detection :=
  {| text := "7XK4"; confidence := QArith_base.Qmake 9 10 |}.

(** A captcha exchange on which the reader detects nothing. *)
Definition unread : captcha_response :=
  {| captcha_content := IMAGE_BODY;
     binaryValue := Some IMAGE;
     readtext := [] |}.

(** A coverage-detail body with the expiry date between double quotes, and
    one with the date running up to the closing quote of its JSON string. *)
Definition quoted_expiry : string :=
  "Expires on: " ++ dquote ++ "2026-01-01" ++ dquote.

Definition body_quoted_expiry : string :=
  COVERAGE_DETAIL_MARKER ++ " " ++ quoted_expiry.

Definition body_plain_expiry : string :=
  COVERAGE_DETAIL_MARKER ++ " Expires on: 2026-01-01" ++ dquote.

Definition plain_expiry : string := "Expires on: 2026-01-01" ++ dquote.

(** A coverage-detail body with the three texts the patterns look for. *)
Definition body_dated : string :=
  COVERAGE_DETAIL_MARKER ++ ": MacBook Pro (13-inch, 2020), purchased in"
  ++ " January 2024. Expires on: March 5, 2026" ++ dquote ++ ", renewable.".

(** A coverage-detail body that echoes a serial number of its own. *)
Definition body_with_echo : string :=
  COVERAGE_DETAIL_MARKER ++ " AB1234567890".

(** A body with both the rate-limit and the coverage-detail marker. *)
Definition body_busy_and_detail : string :=
  COVERAGE_DETAIL_MARKER ++ " ... " ++ RATE_LIMIT_MARKER.

(** The first serial number is settled as invalid, then the token endpoint
    leaves the header out. *)
Definition answers_abort_on_second : list answer :=
  (settle "token-1" sample_solution INVALID_SERIAL_MARKER
   ++ [TokenReply None])%list.

(** One token, and three solved captchas that the service rejects before a
    fourth is fetched. *)
Definition answers_four_fetches : list answer :=
  [ TokenReply (Some "token-1");
    CaptchaReply (solved sample_solution); CoverageReply CAPTCHA_MISMATCH_MARKER;
    CaptchaReply (solved sample_solution); CoverageReply CAPTCHA_MISMATCH_MARKER;
    CaptchaReply (solved sample_solution); CoverageReply CAPTCHA_MISMATCH_MARKER;
    CaptchaReply (solved sample_solution) ].

(** One token, five captchas that are read and rejected, and a sixth that
    is read. *)
Definition answers_five_rejections : list answer :=
  (TokenReply (Some "token-1")
   :: rounds_of (repeat (solved sample_solution, CAPTCHA_MISMATCH_MARKER) 5)
   ++ [CaptchaReply (solved sample_solution)])%list.

(** The state of the script at its sixth coverage query on one token, the
    five before it answered with a captcha mismatch. *)
Definition at_sixth_query : state :=
  {| at_ := SubmitQuery (text sample_solution);
     current := SERIAL_1;
     pending := [];
     auth_token := Some "token-1";
     CAPTCHA_INVALID_COUNT := 5;
     output := Some [Head.get_headers] |}.

(** The captcha body is neither the busy page nor JSON, so that [json.loads]
    raises; and the token endpoint cannot be reached, so that
    [requests.get] raises. *)
Definition answers_captcha_not_json : list answer :=
  [TokenReply (Some "token-1"); Raised "json.decoder.JSONDecodeError"].

Definition answers_no_network : list answer :=
  [Raised "requests.exceptions.ConnectionError"].

(** One rejected captcha on the first token, then three captchas with nothing
    detected and a second token. *)
Definition answers_refresh_after_attempts : list answer :=
  [ TokenReply (Some "token-1");
    CaptchaReply (solved sample_solution); CoverageReply CAPTCHA_MISMATCH_MARKER;
    CaptchaReply unread; CaptchaReply unread; CaptchaReply unread;
    TokenReply (Some "token-2") ].

(** Case analysis on one transition [H : step st a = Some st']: the five
    pairs of a control point (kept as [Hat]) and the answer that fits it are
    left, in the order of [step]; the five in which the call raised are
    closed by [crashed]. *)
Ltac step_cases st a H Hat crashed :=
  unfold step in H;
  destruct (at_ st)
    as [ | attempt | | CAPTCHA_ANSWER | | exit_code | | crash ] eqn:Hat;
  destruct a as [header|response|content|error];
  try discriminate H;
  [ | solve [crashed] | | solve [crashed] | | solve [crashed]
    | | solve [crashed] | | solve [crashed] ].

End Checker.

(** * Notions for the properties of the text layer *)
Module Shapes.

Import Text.
Local Open Scope string_scope.

(** [m] occurs in [s]. *)
Definition occurs (m s : string) : Prop :=
  exists before after, s = before ++ m ++ after.

(** Every character of [s] belongs to the class [k]. *)
Fixpoint all_accept (k : charclass) (s : string) : bool :=
  match s with
  | EmptyString => true
  | String c rest => accepts k c && all_accept k rest
  end.

(** [n] repetitions are allowed by the quantifier of [a]. *)
Definition within (a : atom) (n : nat) : bool :=
  (lo a <=? n)%nat
  && match hi a with
     | None => true
     | Some h => (n <=? h)%nat
     end.

(** [n] repetitions do not exceed the upper bound of the quantifier. *)
Definition below_hi (a : atom) (n : nat) : Prop :=
  match hi a with
  | None => True
  | Some h => n <= h
  end.

(** The texts a pattern stands for: one run of characters per quantified
    class, of an allowed length, one after the other. *)
Inductive in_lang : regex -> string -> Prop :=
| lang_nil : in_lang [] EmptyString
| lang_cons (a : atom) (re : regex) (s1 s2 : string) :
    all_accept (cls a) s1 = true ->
    within a (String.length s1) = true ->
    in_lang re s2 ->
    in_lang (a :: re) (s1 ++ s2).

(** The loop [match_here] runs for the first quantified class of a pattern,
    with what follows the class as [next]. *)
Definition repeat_class (a : atom) (next : string -> option string)
    : nat -> string -> option string :=
  fix rep (done : nat) (s : string) {struct s} : option string :=
    let stop := if (lo a <=? done)%nat then next s else None in
    match s with
    | String c rest =>
        if may_repeat a done && accepts (cls a) c then
          match rep (S done) rest with
          | Some m => Some (String c m)
          | None => stop
          end
        else stop
    | EmptyString => stop
    end.

(** The first and the last character of a text. *)
Definition first_char (s : string) : option ascii :=
  match s with
  | EmptyString => None
  | String c _ => Some c
  end.

Fixpoint last_char (s : string) : option ascii :=
  match s with
  | EmptyString => None
  | String c EmptyString => Some c
  | String _ rest => last_char rest
  end.

Definition is_space_at (end_char : option ascii) : bool :=
  match end_char with
  | Some c => is_space c
  | None => false
  end.

(** No white space at either end. *)
Definition trimmed (s : string) : bool :=
  negb (is_space_at (first_char s)) && negb (is_space_at (last_char s)).

(** White space only. *)
Definition blank (s : string) : bool := all_accept Space s.

(** The character [c] is one of [s]. *)
Fixpoint has_char (c : ascii) (s : string) : bool :=
  match s with
  | EmptyString => false
  | String d rest => Ascii.eqb d c || has_char c rest
  end.

End Shapes.

(** * Notions for the properties of runs *)
Module Traces.

Import Text Checker.
Local Open Scope string_scope.

(** The value of [auth_token] after the answers [answers], when it was [t]
    before them: what the token endpoint answered last. *)
Fixpoint token_in_use (t : option string) (answers : list answer) : option string :=
  match answers with
  | [] => t
  | TokenReply header :: rest => token_in_use header rest
  | _ :: rest => token_in_use t rest
  end.

(** While the script is between a token and the end of a serial number it
    holds a token. *)
Definition holds_token (st : state) : Prop :=
  match at_ st with
  | FetchCaptcha _ | SubmitQuery _ | RefreshAfterAttempts
  | RefreshAfterInvalid => auth_token st <> None
  | AcquireToken | Exited _ | Finished | Crashed _ => True
  end.

(** The coverage bodies among [answers] that end the handling of a serial
    number, in the order they came. *)
Fixpoint terminal_bodies (answers : list answer) : list string :=
  match answers with
  | [] => []
  | CoverageReply content :: rest =>
      if terminal (classify content)
      then content :: terminal_bodies rest
      else terminal_bodies rest
  | _ :: rest => terminal_bodies rest
  end.

(** The record [e] is the one built for a serial number and a body. *)
Definition built_from (pair : string * string) (e : ResultRecord) : Prop :=
  RESULT_ENTRY (fst pair) (snd pair) = Some e.

(** One pass of the [while] loop that ends in a coverage query: the captcha
    attempts that fail, the one that is read, and the coverage exchange. *)
Definition retry_round
    (r : list captcha_response * captcha_response * string) : list answer :=
  (map CaptchaReply (fst (fst r))
   ++ [CaptchaReply (snd (fst r)); CoverageReply (snd r)])%list.

(** Such a pass in which the captcha is read after [budget] failed attempts
    at most and the coverage query is rate limited. *)
Definition rate_limited
    (budget : nat) (r : list captcha_response * captcha_response * string)
    : Prop :=
  List.length (fst (fst r)) <= budget
  /\ Forall (fun response => captcha_attempt response = None) (fst (fst r))
  /\ captcha_attempt (snd (fst r)) <> None
  /\ classify (snd r) = RateLimited.

(** The script after a token and one captcha attempt with nothing
    detected; a pass in which the captcha is read at the next attempt, and
    one in which it is read after two failed attempts, both rate limited. *)
Definition after_one_failed_attempt : state :=
  {| at_ := FetchCaptcha 1;
     current := SERIAL_1;
     pending := [];
     auth_token := Some "token-1";
     CAPTCHA_INVALID_COUNT := 0;
     output := Some [Head.get_headers] |}.

Definition late_reading : list captcha_response * captcha_response * string :=
  ([unread], solved sample_solution, RATE_LIMIT_MARKER).

Definition later_reading : list captcha_response * captcha_response * string :=
  ([unread; unread], solved sample_solution, RATE_LIMIT_MARKER).

(** The number of tokens issued, of captchas fetched and of coverage queries
    sent in the course of [answers]. *)
Definition tokens_issued (answers : list answer) : nat :=
  List.length
    (filter (fun a => match a with TokenReply (Some _) => true | _ => false end)
       answers).

Definition captchas_fetched (answers : list answer) : nat :=
  List.length
    (filter (fun a => match a with CaptchaReply _ => true | _ => false end)
       answers).

Definition queries_sent (answers : list answer) : nat :=
  List.length
    (filter (fun a => match a with CoverageReply _ => true | _ => false end)
       answers).

(** 1 while a serial number is being handled on a token, 0 otherwise. *)
Definition on_a_token (st : state) : nat :=
  match at_ st with
  | FetchCaptcha _ | SubmitQuery _ | RefreshAfterAttempts
  | RefreshAfterInvalid => 1
  | AcquireToken | Exited _ | Finished | Crashed _ => 0
  end.

(** 1 while a captcha answer waits to be submitted, 0 otherwise. *)
Definition submitting (st : state) : nat :=
  match at_ st with
  | SubmitQuery _ => 1
  | _ => 0
  end.

(** The status strings of the six branches that write a record. *)
Definition status_of (o : QueryOutcome) : option string :=
  match o with
  | RateLimited | CaptchaInvalid => None
  | IdentifierInvalid => Some "Invalid"
  | PurchaseDateUnverifiable => Some "Cannot verify purchase date"
  | CoverageFound => Some "Fully valid"
  | RequestRejected => Some "Cannot process request"
  | CoverageDetail => Some Head.Status.valid
  | Unknown => Some "Unknown"
  end.

(** A body that takes the branch [o] of the chain: the marker of the branch
    on its own, the empty body for [Unknown]. *)
Definition body_for (o : QueryOutcome) : string :=
  match o with
  | RateLimited => RATE_LIMIT_MARKER
  | CaptchaInvalid => CAPTCHA_MISMATCH_MARKER
  | IdentifierInvalid => INVALID_SERIAL_MARKER
  | PurchaseDateUnverifiable => PURCHASE_DATE_MARKER
  | CoverageFound => BENEFITS_MARKER
  | RequestRejected => CANNOT_PROCESS_MARKER
  | CoverageDetail => COVERAGE_DETAIL_MARKER
  | Unknown => EmptyString
  end.

End Traces.

(** * class Colors

    The names the class body binds, and [getattr] and [dir] on the class.
    A class also answers to names it does not bind itself: those of [object]
    and of its metaclass [type], and the ones every class body gets
    ([__module__], [__doc__], [__dict__] and the like).  They are not in the
    source and are taken as the parameter [surroundings]. *)
Module Colors.

Import Text.
Local Open Scope string_scope.

Definition ESC : ascii := ascii_of_nat 27.

Definition RED : string := String ESC "[31m".
Definition GREEN : string := String ESC "[32m".
Definition ORANGE : string := String ESC "[93m".
Definition YELLOW : string := String ESC "[33m".
Definition BLUE : string := String ESC "[34m".
Definition RESET : string := String ESC "[0m".
Definition CYAN : string := String ESC "[36m".
Definition MAGENTA : string := String ESC "[35m".

(** The eight colour attributes, in the order of the class body. *)
Definition color_table : list (string * string) :=
  [ ("RED", RED); ("GREEN", GREEN); ("ORANGE", ORANGE); ("YELLOW", YELLOW);
    ("BLUE", BLUE); ("RESET", RESET); ("CYAN", CYAN); ("MAGENTA", MAGENTA) ].

(** What a name of the class is bound to: a [str], one of the functions of
    the class, or another object, of which only [callable] matters. *)
Inductive attribute : Type :=
| Str (value : string)
| Function (name : string)
| Object (is_callable : bool).

Definition callable (a : attribute) : bool :=
  match a with
  | Str _ => false
  | Function _ => true
  | Object is_callable => is_callable
  end.

Definition class_body : list (string * attribute) :=
  (map (fun entry => (fst entry, Str (snd entry))) color_table
   ++ [ ("get_color", Function "get_color");
        ("list_colors", Function "list_colors");
        ("print_colored_text", Function "print_colored_text");
        ("print_all_colors", Function "print_all_colors") ])%list.

(** The names found outside the class body: the data descriptors of the
    metaclass, looked up before the class; what the class inherits or gets
    implicitly, looked up after its body and listed by [dir]; and the other
    attributes of the metaclass, looked up last and not listed. *)
Record surroundings : Type := {
  meta_data : list (string * attribute);
  inherited : list (string * attribute);
  meta_rest : list (string * attribute) }.

Fixpoint lookup {A : Type} (table : list (string * A)) (name : string) : option A :=
  match table with
  | [] => None
  | (key, value) :: rest =>
      if String.eqb key name then Some value else lookup rest name
  end.

(** [getattr(Colors, name)]; [None] stands for [AttributeError]. *)
Definition getattr (w : surroundings) (name : string) : option attribute :=
  lookup (meta_data w ++ class_body ++ inherited w ++ meta_rest w)%list name.

(** [str.upper] on code points below 128. *)
Definition upper_char (c : ascii) : ascii :=
  if in_range "a" "z" c then ascii_of_nat (nat_of_ascii c - 32) else c.

Fixpoint upper (s : string) : string :=
  match s with
  | EmptyString => EmptyString
  | String c rest => String (upper_char c) (upper rest)
  end.

(** [getattr(Colors, color_name.upper(), Colors.RESET)] *)
Definition get_color (w : surroundings) (color_name : string) : attribute :=
  match getattr w (upper color_name) with
  | Some a => a
  | None => Str RESET
  end.

(** [sorted] on names: insertion into a list ordered by code points. *)
Fixpoint insert (name : string) (names : list string) : list string :=
  match names with
  | [] => [name]
  | first :: rest =>
      if String.leb name first then name :: names
      else first :: insert name rest
  end.

Definition sorted (names : list string) : list string :=
  fold_right insert [] names.

(** [dir(Colors)]: the names of the class and of its bases, each once, in
    order. *)
Definition dir (w : surroundings) : list string :=
  sorted (nodup string_dec (map fst (class_body ++ inherited w)%list)).

(** The test of the comprehension in [list_colors]; a name that
    [getattr] does not find would raise and is not kept. *)
Definition is_color (w : surroundings) (attr : string) : bool :=
  match getattr w attr with
  | Some a => negb (callable a) && negb (prefix "__" attr)
  | None => false
  end.

Definition list_colors (w : surroundings) : list string :=
  filter (is_color w) (dir w).

(** The line [print_colored_text] prints; [None] when the colour is not a
    [str]. *)
Definition print_colored_text (w : surroundings) (text color_name : string)
    : option string :=
  match get_color w color_name with
  | Str color => Some (color ++ text ++ RESET)
  | _ => None
  end.

(** The lines [print_all_colors] prints. *)
Definition print_all_colors (w : surroundings) : list (option string) :=
  map (fun color => print_colored_text w ("Sample text in " ++ color) color)
    (list_colors w).

(** A lower-case letter occurs in the name. *)
Fixpoint has_lower (s : string) : bool :=
  match s with
  | EmptyString => false
  | String c rest => in_range "a" "z" c || has_lower rest
  end.

(** What holds of the names of [object] and [type] in CPython: those found
    before the class body or listed by [dir] begin with two underscores, and
    all of them hold a lower-case letter. *)
Definition python_names (w : surroundings) : Prop :=
  Forall (fun kv => prefix "__" (fst kv) = true) (meta_data w ++ inherited w)
  /\ Forall (fun kv => has_lower (fst kv) = true)
       (meta_data w ++ inherited w ++ meta_rest w).

(** A few of those names. *)
Definition sample_surroundings : surroundings :=
  {| meta_data := [("__name__", Str "Colors"); ("__dict__", Object false)];
     inherited := [("__doc__", Str "ANSI escape sequences for colored output.");
                   ("__init__", Object true); ("__module__", Str "__main__")];
     meta_rest := [("mro", Object true)] |}.

End Colors.

(** * Properties of [exponential_backoff] *)
Module BackoffFacts.

Import QArith Qminmax Qpower Lqa.
Import Backoff.
Local Open Scope Q_scope.

Lemma Qmin_inject_Z (a b : Z) :
  Qmin (inject_Z a) (inject_Z b) == inject_Z (Z.min a b).
Proof.
  destruct (Z.min_spec a b) as [[Hlt ->] | [Hle ->]].
  - apply Q.min_l. rewrite <- Zle_Qle. lia.
  - apply Q.min_r. rewrite <- Zle_Qle. lia.
Qed.

(** On the integers from 0 on, [wait_time] is the integer
    [min(60, 2**retry_attempt)]. *)
Lemma wait_time_integer (retry_attempt : Z) :
  (0 <= retry_attempt)%Z ->
  wait_time retry_attempt == inject_Z (Z.min 60 (2 ^ retry_attempt)).
Proof.
  intros Hn. unfold wait_time.
  destruct (Z.ltb_spec retry_attempt (-1074)) as [Hlow|_]; [lia|].
  change 60 with (inject_Z 60). change 2 with (inject_Z 2).
  rewrite <- (Zpower_Qpower 2 retry_attempt Hn).
  apply Qmin_inject_Z.
Qed.

Lemma wait_time_capped (retry_attempt : Z) : wait_time retry_attempt <= 60.
Proof.
  unfold wait_time. destruct (retry_attempt <? -1074)%Z; [lra|].
  apply Q.le_min_l.
Qed.

Lemma wait_time_not_negative (retry_attempt : Z) : 0 <= wait_time retry_attempt.
Proof.
  unfold wait_time. destruct (retry_attempt <? -1074)%Z; [lra|].
  apply Q.min_glb; [lra|]. apply Qpower_0_le. lra.
Qed.

Lemma wait_time_at_least_1 (retry_attempt : Z) :
  (0 <= retry_attempt)%Z -> 1 <= wait_time retry_attempt.
Proof.
  intros Hn. rewrite wait_time_integer by exact Hn.
  change 1 with (inject_Z 1). rewrite <- Zle_Qle.
  pose proof (Z.pow_pos_nonneg 2 retry_attempt ltac:(lia) Hn). lia.
Qed.

Lemma jitter_range (u : Q) : 0 <= u <= 1 -> 0.5 <= uniform 0.5 1.5 u <= 1.5.
Proof. unfold uniform. intros [H0 H1]. split; lra. Qed.

(** C5, as stated, fails: with the draw [u = 0.5] the jitter factor is 1 and
    the delay of attempt 1 is [min(60, 2**1) = 2] seconds, which is outside
    the interval from 0.5 to 1.5 the claim gives for attempt 1. *)
Lemma C5_attempt_1_delay_exceeds_claimed_interval :
  0 <= 0.5 <= 1
  /\ exponential_backoff 1 0.5 == 2
  /\ ~ (1 * 0.5 <= exponential_backoff 1 0.5 <= 1 * 1.5).
Proof.
  split; [split; lra|]. split; [vm_compute; reflexivity|].
  intros [_ H]. vm_compute in H. apply H. reflexivity.
Qed.

(** C5, amended: for every retry attempt [n >= 1] the delay is
    [min(60, 2^n)] seconds times a jitter factor between 0.5 and 1.5; for
    attempt 1 the base is 2, so the delay lies between [2 * 0.5 = 1] and
    [2 * 1.5 = 3] seconds; for attempt 6 the base before jitter is 60, and it
    is never above 60. *)
Theorem C5_backoff_delay (retry_attempt : Z) (u : Q) :
  (1 <= retry_attempt)%Z -> 0 <= u <= 1 ->
  exists jitter,
    0.5 <= jitter <= 1.5
    /\ exponential_backoff retry_attempt u
       == jitter * inject_Z (Z.min 60 (2 ^ retry_attempt))
    /\ (retry_attempt = 1%Z ->
        wait_time retry_attempt == 2
        /\ 2 * 0.5 <= exponential_backoff retry_attempt u <= 2 * 1.5)
    /\ (retry_attempt = 6%Z -> wait_time retry_attempt == 60)
    /\ wait_time retry_attempt <= 60.
Proof.
  intros Hn Hu. exists (uniform 0.5 1.5 u).
  pose proof (jitter_range u Hu) as Hj.
  split; [exact Hj|]. split; [|split; [|split]].
  - unfold exponential_backoff, random_wait.
    rewrite wait_time_integer by lia. reflexivity.
  - intros ->. unfold exponential_backoff, random_wait.
    assert (E : wait_time 1 == 2) by (vm_compute; reflexivity).
    split; [exact E|]. rewrite E. split; lra.
  - intros ->. vm_compute. reflexivity.
  - apply wait_time_capped.
Qed.

Lemma C5_backoff_delay_witness :
  (1 <= 1)%Z /\ 0 <= 0.25 <= 1
  /\ exists jitter,
       0.5 <= jitter <= 1.5
       /\ exponential_backoff 1 0.25 == jitter * inject_Z (Z.min 60 (2 ^ 1))
       /\ (1%Z = 1%Z ->
           wait_time 1 == 2
           /\ 2 * 0.5 <= exponential_backoff 1 0.25 <= 2 * 1.5)
       /\ (1%Z = 6%Z -> wait_time 1 == 60)
       /\ wait_time 1 <= 60.
Proof.
  split; [lia|]. split; [split; lra|].
  apply (C5_backoff_delay 1 0.25); [lia | split; lra].
Defined.

End BackoffFacts.

(** * Properties of the text layer *)
Module TextFacts.

Import Text.
Local Open Scope string_scope.

Lemma prefix_empty (s : string) : prefix EmptyString s = true.
Proof. destruct s; reflexivity. Qed.

Lemma prefix_cons (c : ascii) (w s : string) :
  prefix (String c w) (String c s) = prefix w s.
Proof. simpl. destruct (ascii_dec c c); [reflexivity | congruence]. Qed.

Lemma prefix_head (c d : ascii) (w s : string) :
  prefix (String c w) (String d s) = true -> d = c.
Proof. simpl. destruct (ascii_dec c d); [congruence | discriminate]. Qed.

(** A literal character at the head of a pattern takes exactly that
    character. *)
Lemma match_here_one_lit (c : ascii) (re : regex) (s : string) :
  match_here (one (Lit c) :: re) s =
  match s with
  | String d rest =>
      if Ascii.eqb d c
      then option_map (String d) (match_here re rest)
      else None
  | EmptyString => None
  end.
Proof.
  destruct s as [|d rest]; [reflexivity|].
  cbn. destruct (Ascii.eqb d c); [|reflexivity].
  destruct rest as [|d' rest']; cbn; destruct (match_here re _); reflexivity.
Qed.

(** What a pattern that begins with the literal text [w] matches begins
    with [w]. *)
Lemma match_here_lit (w : string) (re : regex) :
  forall s m, match_here (lit w ++ re)%list s = Some m -> prefix w m = true.
Proof.
  induction w as [|c w IH]; intros s m H; [apply prefix_empty|].
  change (lit (String c w) ++ re)%list
    with (one (Lit c) :: (lit w ++ re))%list in H.
  rewrite match_here_one_lit in H.
  destruct s as [|d rest]; [discriminate|].
  destruct (Ascii.eqb d c) eqn:E; [|discriminate].
  apply Ascii.eqb_eq in E. subst d.
  destruct (match_here (lit w ++ re)%list rest) as [m'|] eqn:Em; [|discriminate].
  injection H as <-. rewrite prefix_cons. eapply IH, Em.
Qed.

(** What [search] returns is matched at some position of the text. *)
Lemma search_match_here (re : regex) :
  forall s m, search re s = Some m -> exists s', match_here re s' = Some m.
Proof.
  induction s as [|c s IH]; intros m H; simpl in H.
  - destruct (match_here re EmptyString) eqn:E; [|discriminate].
    exists EmptyString. congruence.
  - destruct (match_here re (String c s)) eqn:E.
    + exists (String c s). congruence.
    + apply IH, H.
Qed.

Lemma rstrip_cons (c : ascii) (s : string) :
  rstrip (String c s) =
  match rstrip s with
  | EmptyString => if is_space c then EmptyString else String c EmptyString
  | kept => String c kept
  end.
Proof. reflexivity. Qed.

(** [rstrip] keeps a prefix that does not end with white space. *)
Lemma rstrip_prefix :
  forall w s, prefix w s = true -> rstrip w = w -> prefix w (rstrip s) = true.
Proof.
  induction w as [|c w IH]; intros s Hp Hw; [apply prefix_empty|].
  destruct s as [|d s]; [discriminate|].
  pose proof (prefix_head _ _ _ _ Hp) as ->. rewrite prefix_cons in Hp.
  rewrite rstrip_cons in Hw. rewrite rstrip_cons.
  destruct (rstrip w) as [|k kept] eqn:Ew.
  - destruct (is_space c) eqn:Ec; [discriminate|].
    injection Hw as <-.
    destruct (rstrip s); rewrite prefix_cons; apply prefix_empty.
  - injection Hw as Hw. specialize (IH s Hp Hw).
    destruct (rstrip s) as [|k' kept'] eqn:Es.
    + rewrite <- Hw in IH. discriminate.
    + rewrite prefix_cons. exact IH.
Qed.

(** [strip] keeps a prefix that neither begins nor ends with white space. *)
Lemma strip_prefix (c : ascii) (w s : string) :
  is_space c = false -> rstrip (String c w) = String c w ->
  prefix (String c w) s = true -> prefix (String c w) (strip s) = true.
Proof.
  intros Hc Hw Hp. unfold strip.
  destruct s as [|d s]; [discriminate|].
  pose proof (prefix_head _ _ _ _ Hp) as ->.
  simpl lstrip. rewrite Hc. apply rstrip_prefix; assumption.
Qed.

End TextFacts.

(** * Properties of the script *)
Module CheckerFacts.

Import Text Checker TextFacts.
Local Open Scope string_scope.

(** ** Runs *)

Lemma run_app (st : state) (xs ys : list answer) :
  run st (xs ++ ys) =
  match run st xs with
  | Some st' => run st' ys
  | None => None
  end.
Proof.
  revert st. induction xs as [|a xs IH]; intros st; simpl; [reflexivity|].
  destruct (step st a); [apply IH | reflexivity].
Qed.

Lemma run_last (st st' : state) (earlier : list answer) (a : answer) :
  run st (earlier ++ [a]) = Some st' ->
  exists mid, run st earlier = Some mid /\ step mid a = Some st'.
Proof.
  rewrite run_app. destruct (run st earlier) as [mid|]; [|discriminate].
  simpl. destruct (step mid a) as [st2|] eqn:E; [|discriminate].
  intros H. injection H as <-. exists mid. split; [reflexivity | exact E].
Qed.

Lemma answers_from_the_end (answers : list answer) :
  answers = [] \/ exists earlier a, answers = (earlier ++ [a])%list.
Proof.
  destruct answers as [|a rest] using rev_ind; [left; reflexivity|].
  right. exists rest, a. reflexivity.
Qed.

(** A property kept by every transition holds all along a run. *)
Lemma run_preserves (P : state -> Prop) :
  (forall st a st', P st -> step st a = Some st' -> P st') ->
  forall answers st st', P st -> run st answers = Some st' -> P st'.
Proof.
  intros Hstep. induction answers as [|a rest IH]; simpl; intros st st' HP Hrun.
  - injection Hrun as <-. exact HP.
  - destruct (step st a) as [mid|] eqn:E; [|discriminate].
    eapply IH; [eapply Hstep; eassumption | exact Hrun].
Qed.

Lemma halted_stuck (st : state) (a : answer) :
  halted st = true -> step st a = None.
Proof.
  unfold halted, step. destruct (at_ st); intros H; try discriminate H;
    destruct a; reflexivity.
Qed.

Lemma halted_run (st st' : state) (answers : list answer) :
  halted st = true -> run st answers = Some st' -> answers = [] /\ st' = st.
Proof.
  intros Hh. destruct answers as [|a rest]; simpl.
  - intros H. injection H as <-. split; reflexivity.
  - rewrite (halted_stuck st a Hh). discriminate.
Qed.

(** ** The record of a body *)

Lemma RESULT_ENTRY_terminal (serial content : string) :
  terminal (classify content) = true ->
  exists e, RESULT_ENTRY serial content = Some e.
Proof.
  unfold RESULT_ENTRY. destruct (classify content); simpl; intros H;
    try discriminate H; eexists; reflexivity.
Qed.

Lemma RESULT_ENTRY_is_terminal (serial content : string) (e : ResultRecord) :
  RESULT_ENTRY serial content = Some e -> terminal (classify content) = true.
Proof.
  unfold RESULT_ENTRY. destruct (classify content); intros H;
    try discriminate H; reflexivity.
Qed.

Lemma RESULT_ENTRY_serial (serial content : string) (e : ResultRecord) :
  RESULT_ENTRY serial content = Some e -> serial_number e = serial.
Proof.
  unfold RESULT_ENTRY. destruct (classify content); intros H;
    try discriminate H; injection H as <-; reflexivity.
Qed.

(** On a body that ends the handling of the serial number the transition
    appends the record of that body. *)
Lemma step_terminal (st : state) (solution content : string)
    (e : ResultRecord) :
  at_ st = SubmitQuery solution ->
  RESULT_ENTRY (current st) content = Some e ->
  step st (CoverageReply content) = Some (next_serial e st).
Proof.
  intros Hat He. unfold step. rewrite Hat.
  pose proof (RESULT_ENTRY_is_terminal _ _ _ He) as Ht.
  destruct (classify content); try discriminate Ht; rewrite He; reflexivity.
Qed.

(** The script never refuses an answer to the call it is waiting on. *)
Lemma step_accepts (st : state) :
  match at_ st with
  | FetchCaptcha _ =>
      forall response, exists st', step st (CaptchaReply response) = Some st'
  | SubmitQuery _ =>
      forall content, exists st', step st (CoverageReply content) = Some st'
  | AcquireToken | RefreshAfterAttempts | RefreshAfterInvalid =>
      forall header, exists st', step st (TokenReply header) = Some st'
  | Exited _ | Finished | Crashed _ => forall a, step st a = None
  end.
Proof.
  destruct (at_ st) eqn:Hat.
  - intros header. unfold step. rewrite Hat. eexists. reflexivity.
  - intros response. unfold step. rewrite Hat.
    destruct (captcha_attempt response);
      [|destruct (S attempt <? 3)%nat]; eexists; reflexivity.
  - intros header. unfold step. rewrite Hat. eexists. reflexivity.
  - intros content. unfold step. rewrite Hat.
    destruct (terminal (classify content)) eqn:Ht.
    + destruct (RESULT_ENTRY_terminal (current st) content Ht) as [e He].
      rewrite He.
      destruct (classify content); try discriminate Ht; eexists; reflexivity.
    + destruct (classify content); try discriminate Ht;
        [|destruct (6 <=? _)%nat]; eexists; reflexivity.
  - intros header. unfold step. rewrite Hat. eexists. reflexivity.
  - intros a. apply halted_stuck. unfold halted. rewrite Hat. reflexivity.
  - intros a. apply halted_stuck. unfold halted. rewrite Hat. reflexivity.
  - intros a. apply halted_stuck. unfold halted. rewrite Hat. reflexivity.
Qed.

Lemma output_next_serial (e : ResultRecord) (st : state) :
  output (next_serial e st) = append_row (row_of e) (output st).
Proof. unfold next_serial. destruct (pending st); reflexivity. Qed.

(** ** Records and serial numbers *)

Lemma appended_nothing (base : option sheet) : appended base base [].
Proof.
  unfold appended. destruct base as [rows|]; simpl; [|reflexivity].
  rewrite app_nil_r. reflexivity.
Qed.

Lemma appended_last (base out : option sheet) (records : list ResultRecord)
    (e : ResultRecord) :
  appended base out records ->
  appended base (append_row (row_of e) out) (records ++ [e]).
Proof.
  unfold appended. intros ->. destruct base as [rows|]; simpl; [|reflexivity].
  rewrite map_app, app_assoc. reflexivity.
Qed.

Lemma appended_first (base out : option sheet) (records : list ResultRecord)
    (e : ResultRecord) :
  appended (append_row (row_of e) base) out records ->
  appended base out (e :: records).
Proof.
  unfold appended. intros ->. destruct base as [rows|]; simpl; [|reflexivity].
  rewrite <- app_assoc. reflexivity.
Qed.

Lemma written_next_serial (serial_numbers : list string) (base : option sheet)
    (st : state) (e : ResultRecord) :
  at_ st <> Finished -> serial_number e = current st ->
  written serial_numbers base st ->
  written serial_numbers base (next_serial e st).
Proof.
  intros Hat He (records & Happ & Hsn).
  exists (records ++ [e])%list. split.
  - rewrite output_next_serial. apply appended_last, Happ.
  - rewrite Hsn, map_app, <- app_assoc. f_equal. simpl. rewrite He.
    unfold unprocessed, next_serial.
    destruct (at_ st) eqn:E; try congruence;
      destruct (pending st); reflexivity.
Qed.

Lemma written_same (serial_numbers : list string) (base : option sheet)
    (st st' : state) :
  output st' = output st -> unprocessed st' = unprocessed st ->
  written serial_numbers base st -> written serial_numbers base st'.
Proof.
  intros Ho Hu (records & Happ & Hsn). exists records.
  rewrite Ho, Hu. split; assumption.
Qed.

Lemma unprocessed_running (st : state) :
  at_ st <> Finished -> unprocessed st = current st :: pending st.
Proof.
  unfold unprocessed. destruct (at_ st); intros H; try reflexivity.
  contradiction H. reflexivity.
Qed.

(** A transition out of [st], at the control point recorded in [Hat], that
    leaves the sheet and the loop variable as they are. *)
Ltac keeps_written st Hw Hat :=
  apply (written_same _ _ st);
  [ reflexivity
  | rewrite !unprocessed_running by (simpl; rewrite ?Hat; discriminate);
    reflexivity
  | exact Hw ].

Lemma written_step (serial_numbers : list string) (base : option sheet)
    (st st' : state) (a : answer) :
  written serial_numbers base st -> step st a = Some st' ->
  written serial_numbers base st'.
Proof.
  intros Hw H.
  step_cases st a H Hat ltac:(injection H as <-; keeps_written st Hw Hat).
  - injection H as <-. destruct header; keeps_written st Hw Hat.
  - destruct (captcha_attempt response);
      [|destruct (S attempt <? 3)%nat]; injection H as <-;
      keeps_written st Hw Hat.
  - injection H as <-. destruct header; keeps_written st Hw Hat.
  - destruct (classify content) eqn:Ec.
    1: { injection H as <-. keeps_written st Hw Hat. }
    1: { destruct (6 <=? _)%nat; injection H as <-; keeps_written st Hw Hat. }
    all: destruct (RESULT_ENTRY (current st) content) as [e|] eqn:Ee;
      [|discriminate H]; injection H as <-;
      apply written_next_serial;
      [congruence | exact (RESULT_ENTRY_serial _ _ _ Ee) | exact Hw].
  - injection H as <-. destruct header; keeps_written st Hw Hat.
Qed.

Lemma written_main (s : string) (rest : list string) (file : option sheet) :
  written (s :: rest) (output (main (s :: rest) file)) (main (s :: rest) file).
Proof. exists []. split; [apply appended_nothing | reflexivity]. Qed.

(** ** A world that settles every serial number *)

Lemma captcha_attempt_solved (solution : detection) :
  captcha_attempt (solved solution) = Some (text solution).
Proof. reflexivity. Qed.

Lemma run_settle (st : state) (token : string) (solution : detection)
    (content : string) (e : ResultRecord) :
  at_ st = AcquireToken ->
  RESULT_ENTRY (current st) content = Some e ->
  run st (settle token solution content)
  = Some (next_serial e
            (goto (SubmitQuery (text solution))
               (set_count 0 (set_auth_token (Some token) st)))).
Proof.
  intros Hat He. unfold settle, run.
  unfold step at 1. rewrite Hat. cbn [acquire].
  unfold step at 1. cbn [at_ goto]. rewrite captcha_attempt_solved.
  rewrite (step_terminal _ (text solution) content e); [reflexivity | reflexivity | exact He].
Qed.

Lemma run_settle_all (token : string) (solution : detection) :
  forall (contents : list string) (st : state),
  at_ st = AcquireToken ->
  List.length contents = S (List.length (pending st)) ->
  Forall (fun c => terminal (classify c) = true) contents ->
  exists st' records,
    run st (settle_all token solution contents) = Some st'
    /\ at_ st' = Finished
    /\ appended (output st) (output st') records
    /\ map serial_number records = current st :: pending st.
Proof.
  induction contents as [|c cs IH]; intros st Hat Hlen Hall; [discriminate|].
  inversion Hall as [|? ? Hc Hcs]; subst.
  destruct (RESULT_ENTRY_terminal (current st) c Hc) as [e He].
  pose proof (RESULT_ENTRY_serial _ _ _ He) as Hsn.
  change (settle_all token solution (c :: cs))
    with (settle token solution c ++ settle_all token solution cs)%list.
  rewrite run_app, (run_settle st token solution c e Hat He).
  set (mid := goto _ _).
  destruct (pending st) as [|s rest] eqn:Hp.
  - destruct cs; [|discriminate].
    exists (next_serial e mid), [e]. split; [reflexivity|].
    split; [unfold next_serial; subst mid; simpl; rewrite Hp; reflexivity|].
    split.
    + rewrite output_next_serial.
      apply (appended_last _ _ []), appended_nothing.
    + simpl. rewrite Hsn. reflexivity.
  - destruct (IH (next_serial e mid)) as (st' & records & Hrun & Hfin & Happ & Hmap).
    + unfold next_serial; subst mid; simpl; rewrite Hp; reflexivity.
    + unfold next_serial; subst mid; simpl; rewrite Hp; simpl in *; lia.
    + exact Hcs.
    + exists st', (e :: records). split; [exact Hrun|]. split; [exact Hfin|].
      rewrite output_next_serial in Happ. split.
      * apply appended_first. exact Happ.
      * simpl. rewrite Hsn, Hmap.
        unfold next_serial; subst mid; simpl; rewrite Hp; reflexivity.
Qed.

(** C1, as stated, fails: two serial numbers are loaded, the first gets its
    record, and when the token endpoint then answers without the header the
    script ends at [sys.exit(0)] with one record for two serial numbers. *)
Lemma C1_abort_leaves_identifier_without_record :
  exists st,
    run (main [SERIAL_1; SERIAL_2] None) answers_abort_on_second = Some st
    /\ halted st = true
    /\ output st
       = Some [Head.get_headers; row_of (plain_entry SERIAL_1 "Invalid")]
    /\ forall records,
         appended (output (main [SERIAL_1; SERIAL_2] None)) (output st) records ->
         map serial_number records <> [SERIAL_1; SERIAL_2].
Proof.
  eexists. split; [reflexivity|]. split; [reflexivity|]. split; [reflexivity|].
  unfold appended. simpl. intros records H Hmap.
  injection H as H.
  apply (f_equal (@List.length row)) in H. apply (f_equal (@List.length string)) in Hmap.
  rewrite length_map in H, Hmap. simpl in H, Hmap. lia.
Qed.

(** C1, amended: at every point of a run the rows added to the sheet are one
    record per serial number the loop has left behind, in input order, below
    the rows the sheet had; once the loop has run out that is one record for
    every serial number loaded, while in a run cut short by [sys.exit(0)] the
    serial number in hand and those after it have none.  And whenever every
    serial number gets a token, a readable captcha and a body that ends its
    handling, the loop does run out. *)
Theorem C1_one_record_per_processed_identifier
    (serial_numbers : list string) (file : option sheet) :
  (forall answers st,
     run (main serial_numbers file) answers = Some st ->
     exists records rest,
       appended (output (main serial_numbers file)) (output st) records
       /\ serial_numbers = (map serial_number records ++ rest)%list
       /\ (at_ st = Finished -> rest = [])
       /\ (serial_numbers <> [] -> at_ st <> Finished ->
           rest = current st :: pending st))
  /\ (forall token solution contents,
        serial_numbers <> [] ->
        List.length contents = List.length serial_numbers ->
        Forall (fun c => terminal (classify c) = true) contents ->
        exists st records,
          run (main serial_numbers file) (settle_all token solution contents)
          = Some st
          /\ at_ st = Finished
          /\ appended (output (main serial_numbers file)) (output st) records
          /\ map serial_number records = serial_numbers).
Proof.
  split.
  - intros answers st Hrun.
    destruct serial_numbers as [|s rest].
    + destruct (halted_run (main [] file) st answers eq_refl Hrun) as [_ ->].
      exists [], []. repeat split.
      * apply appended_nothing.
      * intros Hne. contradiction Hne. reflexivity.
    + assert (Hw : written (s :: rest) (output (main (s :: rest) file)) st).
      { eapply (run_preserves (written (s :: rest) (output (main (s :: rest) file)))).
        - intros ? ? ? ? ?. eapply written_step; eassumption.
        - apply written_main.
        - exact Hrun. }
      destruct Hw as (records & Happ & Hsn).
      exists records, (unprocessed st). repeat split; try assumption.
      * intros Hfin. unfold unprocessed. rewrite Hfin. reflexivity.
      * intros _ Hnf. unfold unprocessed.
        destruct (at_ st); try reflexivity. contradiction Hnf. reflexivity.
  - intros token solution contents Hne Hlen Hall.
    destruct serial_numbers as [|s rest]; [contradiction Hne; reflexivity|].
    destruct (run_settle_all token solution contents (main (s :: rest) file))
      as (st & records & Hrun & Hfin & Happ & Hmap);
      [reflexivity | exact Hlen | exact Hall |].
    exists st, records. repeat split; assumption.
Qed.

Lemma C1_one_record_per_processed_identifier_witness :
  (exists st records rest,
     run (main [SERIAL_1; SERIAL_2] None) answers_abort_on_second = Some st
     /\ appended (output (main [SERIAL_1; SERIAL_2] None)) (output st) records
     /\ [SERIAL_1; SERIAL_2] = (map serial_number records ++ rest)%list)
  /\ (exists st records,
        run (main [SERIAL_1; SERIAL_2] None)
          (settle_all "token-1" sample_solution
             [INVALID_SERIAL_MARKER; EXPIRED_MARKER])
        = Some st
        /\ at_ st = Finished
        /\ appended (output (main [SERIAL_1; SERIAL_2] None)) (output st) records
        /\ map serial_number records = [SERIAL_1; SERIAL_2]).
Proof.
  destruct (C1_one_record_per_processed_identifier [SERIAL_1; SERIAL_2] None)
    as [Hprefix Hall].
  split.
  - eexists.
    destruct (Hprefix answers_abort_on_second _ eq_refl)
      as (records & rest & Happ & Hsn & _).
    exists records, rest. split; [reflexivity|]. split; assumption.
  - apply Hall.
    + discriminate.
    + reflexivity.
    + repeat constructor.
Defined.

(** ** Classification *)

(** C2: the chain of tests is the first-match evaluation of the ordered
    marker list of the specification, and a body that holds both the
    rate-limit marker and the coverage-detail marker is [RateLimited]. *)
Theorem C2_first_marker_wins (content : string) :
  classify content = first_match priority_order content
  /\ (contains RATE_LIMIT_MARKER content = true ->
      contains COVERAGE_DETAIL_MARKER content = true ->
      classify content = RateLimited).
Proof.
  split.
  - unfold classify, priority_order, first_match, existsb.
    repeat match goal with
           | |- context [contains ?m content] => destruct (contains m content)
           end; reflexivity.
  - intros Hbusy _. unfold classify. rewrite Hbusy. reflexivity.
Qed.

Lemma C2_first_marker_wins_witness :
  contains RATE_LIMIT_MARKER body_busy_and_detail = true
  /\ contains COVERAGE_DETAIL_MARKER body_busy_and_detail = true
  /\ classify body_busy_and_detail = RateLimited.
Proof.
  split; [reflexivity|]. split; [reflexivity|].
  apply (proj2 (C2_first_marker_wins body_busy_and_detail)); reflexivity.
Defined.

(** ** The coverage-benefits branch *)

(** C7: a body with the coverage-benefits or the coverage-expired marker and
    none of the four markers tested before them gives the record with status
    [Fully valid] and [N/A] in the three data fields, and that record is what
    the loop appends for the serial number in hand. *)
Theorem C7_benefits_branch_extracts_nothing (serial content : string) :
  contains RATE_LIMIT_MARKER content = false ->
  contains CAPTCHA_MISMATCH_MARKER content = false ->
  contains INVALID_SERIAL_MARKER content = false ->
  contains PURCHASE_DATE_MARKER content = false ->
  contains BENEFITS_MARKER content = true
  \/ contains EXPIRED_MARKER content = true ->
  RESULT_ENTRY serial content
  = Some {| serial_number := serial;
            product_name := "N/A";
            purchase_date := "N/A";
            coverage_expiry := "N/A";
            status := "Fully valid" |}
  /\ forall st solution,
       at_ st = SubmitQuery solution -> current st = serial ->
       step st (CoverageReply content)
       = Some (next_serial (plain_entry serial "Fully valid") st).
Proof.
  intros H1 H2 H3 H4 H5.
  assert (Hc : classify content = CoverageFound).
  { unfold classify. rewrite H1, H2, H3, H4.
    destruct H5 as [-> | ->]; [reflexivity | rewrite orb_true_r; reflexivity]. }
  assert (He : RESULT_ENTRY serial content
               = Some (plain_entry serial "Fully valid")).
  { unfold RESULT_ENTRY. rewrite Hc. reflexivity. }
  split; [exact He|].
  intros st solution Hat <-. exact (step_terminal st solution content _ Hat He).
Qed.

Lemma C7_benefits_branch_extracts_nothing_witness :
  RESULT_ENTRY SERIAL_1 EXPIRED_MARKER
  = Some {| serial_number := SERIAL_1;
            product_name := "N/A";
            purchase_date := "N/A";
            coverage_expiry := "N/A";
            status := "Fully valid" |}
  /\ forall st solution,
       at_ st = SubmitQuery solution -> current st = SERIAL_1 ->
       step st (CoverageReply EXPIRED_MARKER)
       = Some (next_serial (plain_entry SERIAL_1 "Fully valid") st).
Proof.
  apply (C7_benefits_branch_extracts_nothing SERIAL_1 EXPIRED_MARKER);
    try reflexivity.
  right. reflexivity.
Defined.

(** ** The serial number of a record *)

(** C9: whatever branch builds the record, its [serial_number] field is the
    serial number the loop is handling, the head of the row the transition
    appends; the body, and so a serial number echoed in it, has no part
    in that field. *)
Theorem C9_record_carries_input_serial
    (serial content : string) (e : ResultRecord) :
  RESULT_ENTRY serial content = Some e ->
  serial_number e = serial
  /\ hd_error (row_of e) = Some serial
  /\ (forall content' e',
        RESULT_ENTRY serial content' = Some e' ->
        serial_number e' = serial_number e)
  /\ forall st solution,
       at_ st = SubmitQuery solution -> current st = serial ->
       exists st',
         step st (CoverageReply content) = Some st'
         /\ output st' = append_row (row_of e) (output st).
Proof.
  intros He. pose proof (RESULT_ENTRY_serial _ _ _ He) as Hsn.
  split; [exact Hsn|]. split; [simpl; rewrite Hsn; reflexivity|]. split.
  - intros content' e' He'. rewrite Hsn. exact (RESULT_ENTRY_serial _ _ _ He').
  - intros st solution Hat Hcur. rewrite <- Hcur in He.
    exists (next_serial e st). split.
    + exact (step_terminal st solution content e Hat He).
    + apply output_next_serial.
Qed.

Lemma C9_record_carries_input_serial_witness :
  search SERIAL_NUMBER_PATTERN (decode body_with_echo) = Some "AB1234567890"
  /\ serial_number (detail_entry SERIAL_1 body_with_echo) = SERIAL_1.
Proof.
  split; [reflexivity|].
  apply (C9_record_carries_input_serial SERIAL_1 body_with_echo
           (detail_entry SERIAL_1 body_with_echo)).
  reflexivity.
Defined.

(** ** Field extraction *)

Lemma expiry_begins_with_its_label (decoded_data m : string) :
  search COVERAGE_EXPIRY_PATTERN decoded_data = Some m ->
  prefix "Expires on" (strip m) = true.
Proof.
  intros H. destruct (search_match_here _ _ _ H) as [s' Hs'].
  apply strip_prefix; [reflexivity | reflexivity |].
  unfold COVERAGE_EXPIRY_PATTERN in Hs'.
  exact (match_here_lit "Expires on" _ s' m Hs').
Qed.

(** C6, as stated, fails: on a coverage-detail body that holds the text
    [Expires on: Q2026-01-01Q] ([Q] the double quote) the pattern stops at
    the quote, the match is [Expires on: ] and the field is [Expires on:],
    not [2026-01-01]. *)
Lemma C6_quoted_expiry_is_not_extracted :
  contains quoted_expiry body_quoted_expiry = true
  /\ classify body_quoted_expiry = CoverageDetail
  /\ exists e,
       RESULT_ENTRY SERIAL_1 body_quoted_expiry = Some e
       /\ coverage_expiry e = "Expires on:"
       /\ coverage_expiry e <> "2026-01-01".
Proof.
  split; [reflexivity|]. split; [reflexivity|].
  eexists. split; [reflexivity|]. split; [reflexivity|].
  vm_compute. discriminate.
Qed.

(** ** The two counters *)

Lemma counters_step (st st' : state) (a : answer) (n : nat) :
  counters_ok st n -> step st a = Some st' ->
  counters_ok st' (fetches_in_a_row n [a]).
Proof.
  unfold counters_ok. intros Hok H.
  step_cases st a H Hat ltac:(injection H as <-; simpl; lia).
  - injection H as <-. destruct header; simpl; lia.
  - destruct (captcha_attempt response).
    + injection H as <-. simpl. lia.
    + destruct (S attempt <? 3)%nat eqn:E; injection H as <-; simpl.
      * apply Nat.ltb_lt in E. lia.
      * apply Nat.ltb_ge in E. lia.
  - injection H as <-. destruct header; simpl; lia.
  - destruct (classify content).
    1: { injection H as <-. simpl. lia. }
    1: { destruct (6 <=? _)%nat eqn:E; injection H as <-;
           [apply Nat.leb_le in E | apply Nat.leb_gt in E];
           cbn [CAPTCHA_INVALID_COUNT set_count] in E; simpl; lia. }
    all: destruct (RESULT_ENTRY (current st) content); [|discriminate H];
      injection H as <-; unfold next_serial; destruct (pending st); simpl; lia.
  - injection H as <-. destruct header; simpl; lia.
Qed.

Lemma fetches_in_a_row_cons (n : nat) (a : answer) (rest : list answer) :
  fetches_in_a_row n (a :: rest)
  = fetches_in_a_row (fetches_in_a_row n [a]) rest.
Proof. destruct a; reflexivity. Qed.

Lemma counters_run :
  forall answers st st' n,
  counters_ok st n -> run st answers = Some st' ->
  counters_ok st' (fetches_in_a_row n answers).
Proof.
  induction answers as [|a rest IH]; intros st st' n Hok Hrun.
  - injection Hrun as <-. exact Hok.
  - simpl in Hrun. destruct (step st a) as [mid|] eqn:E; [|discriminate].
    rewrite fetches_in_a_row_cons.
    eapply IH; [eapply counters_step; eassumption | exact Hrun].
Qed.

Lemma counters_main (serial_numbers : list string) (file : option sheet) :
  counters_ok (main serial_numbers file) 0.
Proof. destruct serial_numbers; unfold counters_ok; simpl; lia. Qed.

Lemma counters_reachable (serial_numbers : list string) (file : option sheet)
    (answers : list answer) (st : state) :
  run (main serial_numbers file) answers = Some st ->
  counters_ok st (fetches_in_a_row 0 answers).
Proof. apply counters_run, counters_main. Qed.

(** What an answer of the token endpoint does at the three places the script
    asks for a token. *)
Lemma step_token_missing (st : state) :
  at_ st = AcquireToken \/ at_ st = RefreshAfterAttempts
  \/ at_ st = RefreshAfterInvalid ->
  step st (TokenReply None) = Some (goto (Exited 0) (set_auth_token None st)).
Proof. unfold step. intros [-> | [-> | ->]]; reflexivity. Qed.

Lemma step_token_after_invalid (st : state) (token : string) :
  at_ st = RefreshAfterInvalid ->
  step st (TokenReply (Some token))
  = Some (goto (FetchCaptcha 0) (set_count 0 (set_auth_token (Some token) st))).
Proof. unfold step. intros ->. reflexivity. Qed.

Lemma step_token_after_attempts (st : state) (token : string) :
  at_ st = RefreshAfterAttempts ->
  step st (TokenReply (Some token))
  = Some (goto (FetchCaptcha 0) (set_auth_token (Some token) st)).
Proof. unfold step. intros ->. reflexivity. Qed.

(** A captcha that is read and then rejected, [k] times over, takes the
    script from the first captcha attempt back to it with the counter [k]
    higher, as long as the counter stays below 6. *)
Lemma rejections_run (response : captcha_response) (solution content : string) :
  captcha_attempt response = Some solution ->
  classify content = CaptchaInvalid ->
  forall k st,
  at_ st = FetchCaptcha 0 ->
  CAPTCHA_INVALID_COUNT st + k < 6 ->
  exists st',
    run st (rounds_of (repeat (response, content) k)) = Some st'
    /\ at_ st' = FetchCaptcha 0
    /\ CAPTCHA_INVALID_COUNT st' = CAPTCHA_INVALID_COUNT st + k
    /\ auth_token st' = auth_token st.
Proof.
  intros Hr Hc. induction k as [|k IH]; intros st Hat Hlt.
  - exists st. simpl. repeat split; [exact Hat | lia].
  - cbn [repeat rounds_of flat_map round fst snd app run].
    unfold step at 1. rewrite Hat, Hr.
    unfold step at 1. cbn [at_ goto]. rewrite Hc.
    cbn [CAPTCHA_INVALID_COUNT set_count goto].
    destruct (6 <=? CAPTCHA_INVALID_COUNT st + 1)%nat eqn:E;
      [apply Nat.leb_le in E; lia|].
    match goal with
    | |- exists st', run ?mid _ = _ /\ _ =>
        destruct (IH mid eq_refl) as (st' & Hrun & Hat' & Hcount & Htoken);
          [cbn [CAPTCHA_INVALID_COUNT goto set_count]; lia|]
    end.
    cbn [CAPTCHA_INVALID_COUNT auth_token goto set_count] in Hcount, Htoken.
    exists st'. split; [exact Hrun|]. split; [exact Hat'|].
    split; [lia | exact Htoken].
Qed.

(** C3: the invalid-captcha counter stays below 7 in every state the script
    reaches.  A captcha-mismatch body adds one to it; when that makes 6 the
    script asks for a new token, and with the token in hand the counter is 0
    (without it the script exits); when it stays below 6 the script fetches
    another captcha with the token it has.  Every value of the counter below
    6 is reached at a coverage query: after the token and [k] captchas that
    are read and rejected, the next captcha that is read leaves the script at
    the query with the counter at [k] and the token unchanged. *)
Theorem C3_invalid_captcha_counter
    (serial_numbers : list string) (file : option sheet)
    (answers : list answer) (st : state) :
  run (main serial_numbers file) answers = Some st ->
  CAPTCHA_INVALID_COUNT st < 7
  /\ (forall solution content,
       at_ st = SubmitQuery solution ->
       classify content = CaptchaInvalid ->
       exists st',
         step st (CoverageReply content) = Some st'
         /\ CAPTCHA_INVALID_COUNT st' = CAPTCHA_INVALID_COUNT st + 1
         /\ ((CAPTCHA_INVALID_COUNT st' = 6
              /\ at_ st' = RefreshAfterInvalid
              /\ (forall token, exists st2,
                    step st' (TokenReply (Some token)) = Some st2
                    /\ auth_token st2 = Some token
                    /\ CAPTCHA_INVALID_COUNT st2 = 0
                    /\ at_ st2 = FetchCaptcha 0)
              /\ (exists st2,
                    step st' (TokenReply None) = Some st2
                    /\ at_ st2 = Exited 0))
             \/ (CAPTCHA_INVALID_COUNT st' < 6
                 /\ at_ st' = FetchCaptcha 0
                 /\ auth_token st' = auth_token st)))
  /\ (forall token response solution content k,
       serial_numbers <> [] ->
       captcha_attempt response = Some solution ->
       classify content = CaptchaInvalid ->
       k < 6 ->
       exists mid,
         run (main serial_numbers file)
           (TokenReply (Some token)
            :: rounds_of (repeat (response, content) k)
            ++ [CaptchaReply response])
         = Some mid
         /\ at_ mid = SubmitQuery solution
         /\ CAPTCHA_INVALID_COUNT mid = k
         /\ auth_token mid = Some token).
Proof.
  intros Hrun. pose proof (counters_reachable _ _ _ _ Hrun) as Hok.
  split; [|split].
  - unfold counters_ok in Hok. destruct (at_ st); lia.
  - intros solution content Hat Hc.
    unfold counters_ok in Hok. rewrite Hat in Hok. destruct Hok as [_ Hlt].
    unfold step. rewrite Hat, Hc. cbn [CAPTCHA_INVALID_COUNT set_count].
    destruct (6 <=? CAPTCHA_INVALID_COUNT st + 1)%nat eqn:E.
    + apply Nat.leb_le in E. eexists. split; [reflexivity|].
      split; [reflexivity|]. left. simpl.
      split; [lia|]. split; [reflexivity|]. split.
      * intros token. eexists. split; [reflexivity|]. repeat split.
      * eexists. split; reflexivity.
    + apply Nat.leb_gt in E. eexists. split; [reflexivity|].
      split; [reflexivity|]. right. simpl. repeat split. lia.
  - intros token response solution content k Hne Hr Hc Hk.
    destruct serial_numbers as [|s rest]; [contradiction Hne; reflexivity|].
    cbn [run]. unfold step at 1. cbn [main at_ acquire].
    rewrite run_app.
    match goal with
    | |- exists mid, match run ?st0 _ with _ => _ end = _ /\ _ =>
        destruct (rejections_run response solution content Hr Hc k st0 eq_refl)
          as (st' & Hrounds & Hat' & Hcount & Htoken);
          [cbn [CAPTCHA_INVALID_COUNT goto set_count]; lia|]
    end.
    rewrite Hrounds. cbn [run]. unfold step. rewrite Hat', Hr.
    eexists. split; [reflexivity|]. split; [reflexivity|].
    split; [exact Hcount | exact Htoken].
Qed.

Lemma C3_invalid_captcha_counter_witness :
  exists st',
    run (main [SERIAL_1] None) answers_five_rejections = Some at_sixth_query
    /\ at_ at_sixth_query = SubmitQuery (text sample_solution)
    /\ CAPTCHA_INVALID_COUNT at_sixth_query = 5
    /\ step at_sixth_query (CoverageReply CAPTCHA_MISMATCH_MARKER) = Some st'
    /\ CAPTCHA_INVALID_COUNT st' = 6
    /\ at_ st' = RefreshAfterInvalid
    /\ forall token, exists st2,
         step st' (TokenReply (Some token)) = Some st2
         /\ auth_token st2 = Some token
         /\ CAPTCHA_INVALID_COUNT st2 = 0
         /\ at_ st2 = FetchCaptcha 0.
Proof.
  assert (Hrun : run (main [SERIAL_1] None) answers_five_rejections
                 = Some at_sixth_query) by (vm_compute; reflexivity).
  assert (Hc : classify CAPTCHA_MISMATCH_MARKER = CaptchaInvalid)
    by (vm_compute; reflexivity).
  destruct (C3_invalid_captcha_counter [SERIAL_1] None answers_five_rejections
              at_sixth_query Hrun) as (_ & Hstep & _).
  destruct (Hstep (text sample_solution) CAPTCHA_MISMATCH_MARKER eq_refl Hc)
    as (st' & Hst' & Hcount & Hcases).
  exists st'. split; [exact Hrun|]. split; [reflexivity|].
  split; [reflexivity|]. split; [exact Hst'|].
  destruct Hcases as [(H6 & Hat & Htoken & _) | (Hlt & _)].
  - split; [exact H6|]. split; [exact Hat | exact Htoken].
  - exfalso. rewrite Hcount in Hlt.
    change (CAPTCHA_INVALID_COUNT at_sixth_query) with 5 in Hlt. lia.
Defined.

(** C4, as stated, fails: the attempt counter starts again at every pass of
    the [while] loop, so after three captchas that were read and then
    rejected by the service a fourth captcha is fetched on the one token the
    script has. *)
Lemma C4_four_fetches_on_one_token :
  exists st,
    run (main [SERIAL_1] None) answers_four_fetches = Some st
    /\ auth_token st = Some "token-1"
    /\ fetches_on_token 0 answers_four_fetches = 4
    /\ ~ fetches_on_token 0 answers_four_fetches <= 3.
Proof.
  eexists. split; [reflexivity|]. split; [reflexivity|].
  split; [reflexivity|]. simpl. lia.
Qed.

(** C4, amended: the script never makes more than 3 captcha exchanges in a
    row, that is within one pass of [for attempt in range(3)] (a new pass on
    the same token starts after each coverage query that is rate limited or
    rejects the captcha).  When the three attempts of a pass all fail, the
    script is at the token refresh: it takes no captcha or coverage exchange
    there, only the answer of the token endpoint, and goes on with the new
    token or exits. *)
Theorem C4_three_fetches_per_pass
    (serial_numbers : list string) (file : option sheet)
    (answers : list answer) (st : state) :
  run (main serial_numbers file) answers = Some st ->
  fetches_in_a_row 0 answers <= 3
  /\ (forall attempt,
        at_ st = FetchCaptcha attempt ->
        attempt < 3 /\ fetches_in_a_row 0 answers = attempt)
  /\ (at_ st = FetchCaptcha 0 ->
      forall r1 r2 r3,
        captcha_attempt r1 = None -> captcha_attempt r2 = None ->
        captcha_attempt r3 = None ->
        exists st',
          run st [CaptchaReply r1; CaptchaReply r2; CaptchaReply r3] = Some st'
          /\ at_ st' = RefreshAfterAttempts
          /\ auth_token st' = auth_token st)
  /\ (at_ st = RefreshAfterAttempts ->
      fetches_in_a_row 0 answers = 3
      /\ (forall response, step st (CaptchaReply response) = None)
      /\ (forall content, step st (CoverageReply content) = None)
      /\ (forall token, exists st',
            step st (TokenReply (Some token)) = Some st'
            /\ auth_token st' = Some token
            /\ at_ st' = FetchCaptcha 0)
      /\ (exists st',
            step st (TokenReply None) = Some st' /\ at_ st' = Exited 0)).
Proof.
  intros Hrun. pose proof (counters_reachable _ _ _ _ Hrun) as Hok.
  unfold counters_ok in Hok.
  split; [destruct (at_ st); lia|]. split; [|split].
  - intros attempt Hat. rewrite Hat in Hok. lia.
  - intros Hat r1 r2 r3 H1 H2 H3. eexists.
    unfold run, step. rewrite Hat, H1. cbn [Nat.ltb Nat.leb at_ goto].
    rewrite H2. cbn [Nat.ltb Nat.leb at_ goto]. rewrite H3.
    cbn [Nat.ltb Nat.leb at_ goto].
    split; [reflexivity|]. split; reflexivity.
  - intros Hat. rewrite Hat in Hok. split; [lia|].
    split; [intros; unfold step; rewrite Hat; reflexivity|].
    split; [intros; unfold step; rewrite Hat; reflexivity|].
    split.
    + intros token. eexists.
      split; [apply step_token_after_attempts, Hat|]. split; reflexivity.
    + eexists. split; [apply step_token_missing; tauto | reflexivity].
Qed.

Lemma C4_three_fetches_per_pass_witness :
  exists st,
    run (main [SERIAL_1] None) answers_four_fetches = Some st
    /\ fetches_in_a_row 0 answers_four_fetches <= 3.
Proof.
  eexists. split; [reflexivity|].
  exact (proj1 (C4_three_fetches_per_pass [SERIAL_1] None answers_four_fetches
                  _ eq_refl)).
Defined.

(** C8 at its failing input: one captcha is rejected on the first token, then
    three attempts detect nothing and the script acquires a second token at
    line 372.  The attempt counter starts again at 0, and the invalid-captcha
    counter is still 1: that path has no [CAPTCHA_INVALID_COUNT = 0], which
    the refresh at line 409 has. *)
Lemma C8_refresh_after_attempts_keeps_invalid_count :
  exists st,
    run (main [SERIAL_1] None) answers_refresh_after_attempts = Some st
    /\ auth_token st = Some "token-2"
    /\ at_ st = FetchCaptcha 0
    /\ CAPTCHA_INVALID_COUNT st = 1.
Proof. eexists. repeat split. Qed.

(** The acquisitions that do reset: at the top of the [for] loop and after
    the sixth invalid captcha both counters start from 0 with the new token;
    after three failed attempts only the attempt counter does. *)
Lemma token_acquired (st st' : state) (token : string) :
  step st (TokenReply (Some token)) = Some st' ->
  auth_token st' = Some token
  /\ at_ st' = FetchCaptcha 0
  /\ (at_ st <> RefreshAfterAttempts -> CAPTCHA_INVALID_COUNT st' = 0)
  /\ (at_ st = RefreshAfterAttempts ->
      CAPTCHA_INVALID_COUNT st' = CAPTCHA_INVALID_COUNT st).
Proof.
  unfold step. destruct (at_ st) eqn:Hat; try discriminate;
    intros H; injection H as <-; repeat split; intros; congruence.
Qed.

(** ** Exit status *)

Lemma exit_zero_step (st st' : state) (a : answer) :
  step st a = Some st' ->
  forall code, at_ st' = Exited code -> code = 0%Z.
Proof.
  intros H.
  step_cases st a H Hat ltac:(injection H as <-; simpl; congruence).
  - injection H as <-. destruct header; simpl; congruence.
  - destruct (captcha_attempt response);
      [|destruct (S attempt <? 3)%nat]; injection H as <-; simpl; congruence.
  - injection H as <-. destruct header; simpl; congruence.
  - destruct (classify content).
    1: { injection H as <-. simpl. congruence. }
    1: { destruct (6 <=? _)%nat; injection H as <-; simpl; congruence. }
    all: destruct (RESULT_ENTRY (current st) content); [|discriminate H];
      injection H as <-; unfold next_serial; destruct (pending st); simpl;
      congruence.
  - injection H as <-. destruct header; simpl; congruence.
Qed.

Lemma exit_zero_run (serial_numbers : list string) (file : option sheet)
    (answers : list answer) (st : state) :
  run (main serial_numbers file) answers = Some st ->
  forall code, at_ st = Exited code -> code = 0%Z.
Proof.
  apply (run_preserves (fun st => forall code, at_ st = Exited code -> code = 0%Z)).
  - intros ? ? ? _ H. exact (exit_zero_step _ _ _ H).
  - destruct serial_numbers; simpl; congruence.
Qed.

(** An exception ends the script, and nothing else leaves it at
    [Crashed]. *)
Lemma step_raised (st st' : state) (a : answer) :
  step st a = Some st' ->
  match a with
  | Raised error => st' = goto (Crashed error) st
  | _ => forall error, at_ st' <> Crashed error
  end.
Proof.
  intros H.
  step_cases st a H Hat ltac:(injection H as <-; reflexivity).
  - injection H as <-. destruct header; simpl; congruence.
  - destruct (captcha_attempt response);
      [|destruct (S attempt <? 3)%nat]; injection H as <-; simpl; congruence.
  - injection H as <-. destruct header; simpl; congruence.
  - destruct (classify content).
    1: { injection H as <-. simpl. congruence. }
    1: { destruct (6 <=? _)%nat; injection H as <-; simpl; congruence. }
    all: destruct (RESULT_ENTRY (current st) content); [|discriminate H];
      injection H as <-; unfold next_serial; destruct (pending st); simpl;
      congruence.
  - injection H as <-. destruct header; simpl; congruence.
Qed.

Lemma step_not_halted (st st' : state) (a : answer) :
  step st a = Some st' -> halted st = false.
Proof.
  intros H. destruct (halted st) eqn:Hh; [|reflexivity].
  rewrite (halted_stuck st a Hh) in H. discriminate H.
Qed.

Lemma raised_last (earlier : list answer) (a : answer) :
  raised (earlier ++ [a]) = raised earlier || is_raised a.
Proof.
  unfold raised. rewrite existsb_app. simpl. rewrite orb_false_r. reflexivity.
Qed.

(** The script is at [Crashed] exactly when the last answer was an
    exception; no answer before the last one is. *)
Lemma crashed_run (serial_numbers : list string) (file : option sheet) :
  forall answers st,
  run (main serial_numbers file) answers = Some st ->
  (forall error, at_ st = Crashed error ->
     exists earlier,
       answers = (earlier ++ [Raised error])%list /\ raised earlier = false)
  /\ ((forall error, at_ st <> Crashed error) -> raised answers = false).
Proof.
  induction answers as [|a earlier IH] using rev_ind; intros st Hrun.
  - injection Hrun as <-. split; [|reflexivity].
    intros error Hat. destruct serial_numbers; discriminate Hat.
  - destruct (run_last _ _ _ _ Hrun) as (mid & Hmid & Hstep).
    destruct (IH mid Hmid) as [_ Hclean].
    assert (Hearlier : raised earlier = false).
    { apply Hclean. intros error Hat.
      pose proof (step_not_halted _ _ _ Hstep) as Hh.
      unfold halted in Hh. rewrite Hat in Hh. discriminate Hh. }
    pose proof (step_raised _ _ _ Hstep) as Hlast.
    split.
    + intros error Hat. destruct a as [header|response|content|error'];
        try (exfalso; exact (Hlast error Hat)).
      rewrite Hlast in Hat. injection Hat as ->.
      exists earlier. split; [reflexivity | exact Hearlier].
    + intros Hnot. rewrite raised_last, Hearlier.
      destruct a as [header|response|content|error']; try reflexivity.
      exfalso. apply (Hnot error'). rewrite Hlast. reflexivity.
Qed.




(** ** Loading *)


End CheckerFacts.

(** * Further properties of the text layer *)
Module ShapeFacts.

Import Text Shapes TextFacts.
Local Open Scope string_scope.

(** ** Concatenation *)

Lemma append_empty_r (s : string) : s ++ EmptyString = s.
Proof. induction s as [|c s IH]; simpl; [reflexivity | rewrite IH; reflexivity]. Qed.

Lemma append_assoc (a b c : string) : (a ++ b) ++ c = a ++ (b ++ c).
Proof. induction a as [|x a IH]; simpl; [reflexivity | rewrite IH; reflexivity]. Qed.

Lemma length_append (a b : string) :
  String.length (a ++ b) = String.length a + String.length b.
Proof. induction a as [|x a IH]; simpl; [reflexivity | rewrite IH; reflexivity]. Qed.

Lemma prefix_append (m rest : string) : prefix m (m ++ rest) = true.
Proof.
  induction m as [|c m IH]; simpl; [apply prefix_empty|].
  destruct (ascii_dec c c); [exact IH | congruence].
Qed.

Lemma prefix_split (m s : string) :
  prefix m s = true -> exists rest, s = m ++ rest.
Proof.
  revert s. induction m as [|c m IH]; intros s H.
  - exists s. reflexivity.
  - destruct s as [|d s]; [discriminate|].
    pose proof (prefix_head _ _ _ _ H) as ->. rewrite prefix_cons in H.
    destruct (IH s H) as [rest ->]. exists rest. reflexivity.
Qed.

(** ** The [in] test *)

Lemma contains_prefix (needle haystack : string) :
  prefix needle haystack = true -> contains needle haystack = true.
Proof.
  intros H. destruct haystack as [|c h].
  - exact H.
  - change (prefix needle (String c h) || contains needle h = true).
    rewrite H. reflexivity.
Qed.

(** [contains] is the substring test: it holds exactly when the needle
    occurs in the haystack. *)
Lemma contains_occurs (needle haystack : string) :
  contains needle haystack = true <-> occurs needle haystack.
Proof.
  split.
  - induction haystack as [|c h IH]; intros H.
    + change (prefix needle EmptyString = true) in H.
      destruct (prefix_split _ _ H) as [rest E].
      exists EmptyString, rest. exact E.
    + change (prefix needle (String c h) || contains needle h = true) in H.
      apply orb_true_iff in H. destruct H as [H | H].
      * destruct (prefix_split _ _ H) as [rest E].
        exists EmptyString, rest. exact E.
      * destruct (IH H) as (before & after & ->).
        exists (String c before), after. reflexivity.
  - intros (before & after & ->).
    induction before as [|c before IH].
    + change (contains needle (needle ++ after) = true).
      apply contains_prefix, prefix_append.
    + change (prefix needle (String c (before ++ needle ++ after))
              || contains needle (before ++ needle ++ after) = true).
      rewrite IH. apply orb_true_r.
Qed.

Lemma occurs_refl (s : string) : occurs s s.
Proof. exists EmptyString, EmptyString. simpl. rewrite append_empty_r. reflexivity. Qed.

Lemma occurs_trans (a b c : string) : occurs a b -> occurs b c -> occurs a c.
Proof.
  intros (p & q & ->) (p' & q' & ->).
  exists (p' ++ p), (q ++ q'). rewrite !append_assoc. reflexivity.
Qed.

(** ** The matcher against the language of a pattern *)

Lemma match_here_cons (a : atom) (re : regex) (s : string) :
  match_here (a :: re) s = repeat_class a (match_here re) 0 s.
Proof. reflexivity. Qed.

Lemma repeat_class_cons (a : atom) (next : string -> option string)
    (done : nat) (c : ascii) (rest : string) :
  repeat_class a next done (String c rest) =
  let stop := if (lo a <=? done)%nat then next (String c rest) else None in
  if may_repeat a done && accepts (cls a) c then
    match repeat_class a next (S done) rest with
    | Some m => Some (String c m)
    | None => stop
    end
  else stop.
Proof. reflexivity. Qed.

Lemma repeat_class_empty (a : atom) (next : string -> option string)
    (done : nat) :
  repeat_class a next done EmptyString =
  if (lo a <=? done)%nat then next EmptyString else None.
Proof. reflexivity. Qed.

Lemma within_iff (a : atom) (n : nat) :
  within a n = true <-> lo a <= n /\ below_hi a n.
Proof.
  unfold within, below_hi. rewrite andb_true_iff, Nat.leb_le.
  destruct (hi a); [rewrite Nat.leb_le|]; tauto.
Qed.

(** What the loop returns is a run of the class, of an allowed length,
    followed by what [next] returns on the rest of the text. *)
Lemma repeat_class_sound (a : atom) (next : string -> option string) :
  forall s done m,
  below_hi a done ->
  repeat_class a next done s = Some m ->
  exists s1 s2 rest,
    m = s1 ++ s2 /\ s = s1 ++ rest
    /\ all_accept (cls a) s1 = true
    /\ lo a <= done + String.length s1
    /\ below_hi a (done + String.length s1)
    /\ next rest = Some s2.
Proof.
  assert (Hstop : forall s done m,
            below_hi a done ->
            (if (lo a <=? done)%nat then next s else None) = Some m ->
            exists s1 s2 rest,
              m = s1 ++ s2 /\ s = s1 ++ rest
              /\ all_accept (cls a) s1 = true
              /\ lo a <= done + String.length s1
              /\ below_hi a (done + String.length s1)
              /\ next rest = Some s2).
  { intros s done m Hb H.
    destruct (lo a <=? done)%nat eqn:E; [|discriminate].
    apply Nat.leb_le in E.
    exists EmptyString, m, s. simpl. rewrite Nat.add_0_r.
    repeat split; assumption. }
  induction s as [|c rest IH]; intros done m Hb H.
  - rewrite repeat_class_empty in H. exact (Hstop _ _ _ Hb H).
  - rewrite repeat_class_cons in H. cbv zeta in H.
    destruct (may_repeat a done && accepts (cls a) c) eqn:E;
      [|exact (Hstop _ _ _ Hb H)].
    apply andb_true_iff in E. destruct E as [Hrep Hacc].
    destruct (repeat_class a next (S done) rest) as [m'|] eqn:Em;
      [|exact (Hstop _ _ _ Hb H)].
    injection H as <-.
    assert (Hb' : below_hi a (S done)).
    { unfold below_hi, may_repeat in *. destruct (hi a); [|exact I].
      apply Nat.ltb_lt in Hrep. lia. }
    destruct (IH (S done) m' Hb' Em) as (s1 & s2 & rest' & -> & -> & Hall & Hlo & Hhi & Hn).
    exists (String c s1), s2, rest'. simpl. rewrite Hacc, Hall.
    rewrite Nat.add_succ_r. repeat split; assumption.
Qed.

(** The loop finds a match whenever the text begins with a run of the class,
    of an allowed length, after which [next] finds one. *)
Lemma repeat_class_complete (a : atom) (next : string -> option string) :
  forall s1 done rest,
  all_accept (cls a) s1 = true ->
  lo a <= done + String.length s1 ->
  below_hi a (done + String.length s1) ->
  next rest <> None ->
  repeat_class a next done (s1 ++ rest) <> None.
Proof.
  induction s1 as [|c s1 IH]; intros done rest Hall Hlo Hhi Hn.
  - simpl in Hlo. rewrite Nat.add_0_r in Hlo. apply Nat.leb_le in Hlo.
    simpl append. destruct rest as [|d rest].
    + rewrite repeat_class_empty, Hlo. exact Hn.
    + rewrite repeat_class_cons. cbv zeta. rewrite Hlo.
      destruct (may_repeat a done && accepts (cls a) d); [|exact Hn].
      destruct (repeat_class a next (S done) rest); [discriminate | exact Hn].
  - simpl in Hall. apply andb_true_iff in Hall. destruct Hall as [Hacc Hall].
    simpl in Hlo, Hhi. rewrite Nat.add_succ_r in Hlo, Hhi.
    change (String c s1 ++ rest) with (String c (s1 ++ rest)).
    rewrite repeat_class_cons. cbv zeta.
    assert (Hrep : may_repeat a done = true).
    { unfold may_repeat, below_hi in *. destruct (hi a); [|reflexivity].
      apply Nat.ltb_lt. lia. }
    rewrite Hrep, Hacc. simpl andb.
    specialize (IH (S done) rest Hall Hlo Hhi Hn).
    destruct (repeat_class a next (S done) (s1 ++ rest)); [discriminate|].
    contradiction IH. reflexivity.
Qed.

(** What [match_here] returns belongs to the language of the pattern and
    stands at the start of the text. *)
Lemma match_here_sound :
  forall re s m,
  match_here re s = Some m ->
  in_lang re m /\ exists rest, s = m ++ rest.
Proof.
  induction re as [|a re IH]; intros s m H.
  - injection H as <-. split; [constructor | exists s; reflexivity].
  - rewrite match_here_cons in H.
    destruct (repeat_class_sound a (match_here re) s 0 m) as
      (s1 & s2 & rest & -> & -> & Hall & Hlo & Hhi & Hn).
    { unfold below_hi. destruct (hi a); [lia | exact I]. }
    { exact H. }
    destruct (IH rest s2 Hn) as [Hl [rest' ->]]. split.
    + constructor; [exact Hall | apply within_iff; split; assumption | exact Hl].
    + exists rest'. rewrite append_assoc. reflexivity.
Qed.

(** [match_here] finds a match whenever the text begins with a member of
    the language. *)
Lemma match_here_complete :
  forall re m, in_lang re m -> forall rest, match_here re (m ++ rest) <> None.
Proof.
  intros re m H. induction H as [|a re s1 s2 Hall Hw Hl IH]; intros rest.
  - discriminate.
  - rewrite match_here_cons, append_assoc.
    apply within_iff in Hw. destruct Hw as [Hlo Hhi].
    apply repeat_class_complete; try assumption. apply IH.
Qed.

(** [search] returns a member of the language that occurs in the text, and
    returns [None] only when no member of the language occurs in it. *)
Lemma search_sound (re : regex) (s m : string) :
  search re s = Some m -> in_lang re m /\ occurs m s.
Proof.
  revert m. induction s as [|c s IH]; intros m H; simpl in H.
  - destruct (match_here re EmptyString) as [m'|] eqn:E; [|discriminate].
    injection H as <-. destruct (match_here_sound _ _ _ E) as [Hl [rest Hr]].
    split; [exact Hl|]. exists EmptyString, rest. exact Hr.
  - destruct (match_here re (String c s)) as [m'|] eqn:E.
    + injection H as <-. destruct (match_here_sound _ _ _ E) as [Hl [rest Hr]].
      split; [exact Hl|]. exists EmptyString, rest. exact Hr.
    + destruct (IH m H) as [Hl (before & after & ->)].
      split; [exact Hl|]. exists (String c before), after. reflexivity.
Qed.

Lemma search_complete (re : regex) (s m : string) :
  in_lang re m -> occurs m s -> search re s <> None.
Proof.
  intros Hl (before & after & ->).
  induction before as [|c before IH].
  - change (search re (m ++ after) <> None).
    pose proof (match_here_complete re m Hl after) as Hm.
    destruct (m ++ after); simpl;
      destruct (match_here re _); try discriminate; contradiction Hm; reflexivity.
  - change (search re (String c (before ++ m ++ after)) <> None). simpl.
    destruct (match_here re _); [discriminate | exact IH].
Qed.

(** No member of the language stands at a position before the one [search]
    returns its match from. *)
Lemma search_leftmost (re : regex) :
  forall s m,
  search re s = Some m ->
  exists before after,
    s = before ++ m ++ after
    /\ forall b1 b2 m',
         before = b1 ++ b2 -> b2 <> EmptyString -> in_lang re m' ->
         prefix m' (b2 ++ m ++ after) = false.
Proof.
  assert (Hnone : forall s m', match_here re s = None -> in_lang re m' ->
                               prefix m' s = false).
  { intros s m' Hn Hl. destruct (prefix m' s) eqn:E; [|reflexivity].
    destruct (prefix_split _ _ E) as [rest ->].
    contradiction (match_here_complete re m' Hl rest). }
  induction s as [|c s IH]; intros m H; simpl in H.
  - destruct (match_here re EmptyString) as [m'|] eqn:E; [|discriminate].
    injection H as <-. destruct (match_here_sound _ _ _ E) as [_ [rest Hr]].
    exists EmptyString, rest. split; [exact Hr|].
    intros b1 b2 m'' Hb Hne. destruct b1, b2; try discriminate Hb. congruence.
  - destruct (match_here re (String c s)) as [m'|] eqn:E.
    + injection H as <-. destruct (match_here_sound _ _ _ E) as [_ [rest Hr]].
      exists EmptyString, rest. split; [exact Hr|].
      intros b1 b2 m'' Hb Hne. destruct b1, b2; try discriminate Hb. congruence.
    + destruct (IH m H) as (before & after & -> & Hleft).
      exists (String c before), after. split; [reflexivity|].
      intros b1 b2 m' Hb Hne Hl. destruct b1 as [|d b1].
      * simpl in Hb. subst b2. apply Hnone; [exact E | exact Hl].
      * injection Hb as -> ->. apply (Hleft b1 b2 m'); [reflexivity | exact Hne | exact Hl].
Qed.

(** What a pattern made of [front] and then [back] matches is a member of
    the language of [front] followed by what [back] matches on the rest. *)
Lemma match_here_app (front back : regex) :
  forall s m,
  match_here (front ++ back)%list s = Some m ->
  exists m1 m2 rest,
    m = m1 ++ m2 /\ s = m1 ++ rest
    /\ in_lang front m1 /\ match_here back rest = Some m2.
Proof.
  induction front as [|a front IH]; intros s m H.
  - exists EmptyString, m, s. repeat split; [constructor | exact H].
  - change ((a :: front) ++ back)%list with (a :: (front ++ back))%list in H.
    rewrite match_here_cons in H.
    destruct (repeat_class_sound a (match_here (front ++ back)%list) s 0 m) as
      (s1 & s2 & rest & -> & -> & Hall & Hlo & Hhi & Hn).
    { unfold below_hi. destruct (hi a); [lia | exact I]. }
    { exact H. }
    destruct (IH rest s2 Hn) as (m1 & m2 & rest' & -> & -> & Hl & Hb).
    exists (s1 ++ m1), m2, rest'. rewrite !append_assoc.
    repeat split; [|exact Hb].
    constructor; [exact Hall | apply within_iff; split; assumption | exact Hl].
Qed.

(** An unbounded class at the end of a pattern runs up to the first
    character outside the class, or to the end of the text. *)
Lemma repeat_class_to_the_end (a : atom) (next : string -> option string) :
  hi a = None -> (forall s, next s = Some EmptyString) ->
  forall s done m,
  repeat_class a next done s = Some m ->
  exists rest,
    s = m ++ rest
    /\ (rest = EmptyString
        \/ exists c r, rest = String c r /\ accepts (cls a) c = false).
Proof.
  intros Hhi Hnext.
  assert (Hstop : forall s done m,
            (if (lo a <=? done)%nat then next s else None) = Some m ->
            lo a <= done /\ m = EmptyString).
  { intros s done m H. destruct (lo a <=? done)%nat eqn:E; [|discriminate].
    apply Nat.leb_le in E. rewrite Hnext in H. injection H as <-. tauto. }
  induction s as [|c s IH]; intros done m H.
  - rewrite repeat_class_empty in H. destruct (Hstop _ _ _ H) as [_ ->].
    exists EmptyString. tauto.
  - rewrite repeat_class_cons in H. cbv zeta in H.
    unfold may_repeat in H. rewrite Hhi in H. simpl andb in H.
    destruct (accepts (cls a) c) eqn:Hacc.
    + destruct (repeat_class a next (S done) s) as [m'|] eqn:Em.
      * injection H as <-. destruct (IH _ _ Em) as [rest [-> Hr]].
        exists rest. split; [reflexivity | exact Hr].
      * destruct (Hstop _ _ _ H) as [Hlo _].
        exfalso. apply (repeat_class_complete a next EmptyString (S done) s).
        -- reflexivity.
        -- simpl. lia.
        -- unfold below_hi. rewrite Hhi. exact I.
        -- rewrite Hnext. discriminate.
        -- exact Em.
    + destruct (Hstop _ _ _ H) as [_ ->].
      exists (String c s). split; [reflexivity|]. right.
      exists c, s. tauto.
Qed.

(** ** Members of a language *)

Lemma in_lang_nil_inv (m : string) : in_lang [] m -> m = EmptyString.
Proof. intros H. inversion H. reflexivity. Qed.

Lemma in_lang_cons_inv (a : atom) (re : regex) (m : string) :
  in_lang (a :: re) m ->
  exists s1 s2,
    m = s1 ++ s2 /\ all_accept (cls a) s1 = true
    /\ within a (String.length s1) = true /\ in_lang re s2.
Proof. intros H. inversion H; subst. eexists _, _. repeat split; eassumption. Qed.

Lemma in_lang_lit (w : string) (re : regex) :
  forall m, in_lang (lit w ++ re)%list m ->
  exists m', m = w ++ m' /\ in_lang re m'.
Proof.
  induction w as [|c w IH]; intros m H.
  - exists m. split; [reflexivity | exact H].
  - change (lit (String c w) ++ re)%list
      with (one (Lit c) :: (lit w ++ re))%list in H.
    destruct (in_lang_cons_inv _ _ _ H) as (s1 & s2 & -> & Hall & Hw & Hl).
    destruct (IH _ Hl) as (m' & -> & Hl').
    exists m'. split; [|exact Hl'].
    destruct s1 as [|d [|d' s1]]; try discriminate Hw.
    simpl in Hall. rewrite andb_true_r in Hall.
    apply Ascii.eqb_eq in Hall. subst d. reflexivity.
Qed.

Lemma has_char_append (c : ascii) (a b : string) :
  has_char c (a ++ b) = has_char c a || has_char c b.
Proof.
  induction a as [|d a IH]; simpl; [reflexivity|].
  rewrite IH, orb_assoc. reflexivity.
Qed.

Lemma all_accept_has_char (k : charclass) (c : ascii) (s : string) :
  accepts k c = false -> all_accept k s = true -> has_char c s = false.
Proof.
  intros Hc. induction s as [|d s IH]; simpl; [reflexivity|].
  intros H. apply andb_true_iff in H. destruct H as [Hd Hs].
  rewrite (IH Hs), orb_false_r.
  destruct (Ascii.eqb d c) eqn:E; [|reflexivity].
  apply Ascii.eqb_eq in E. subst d. congruence.
Qed.

(** A character that no class of the pattern accepts is in no member of its
    language. *)
Lemma in_lang_has_char (c : ascii) (re : regex) (m : string) :
  Forall (fun a => accepts (cls a) c = false) re ->
  in_lang re m -> has_char c m = false.
Proof.
  intros Hall Hl. induction Hl as [|a re s1 s2 Hacc _ _ IH]; [reflexivity|].
  inversion Hall; subst. rewrite has_char_append.
  rewrite (all_accept_has_char _ _ _ H1 Hacc), IH by assumption. reflexivity.
Qed.

(** ** [str.strip] *)

Lemma all_accept_append (k : charclass) (a b : string) :
  all_accept k (a ++ b) = all_accept k a && all_accept k b.
Proof.
  induction a as [|c a IH]; simpl; [reflexivity|].
  rewrite IH, andb_assoc. reflexivity.
Qed.

Lemma lstrip_split (s : string) :
  exists ws,
    s = ws ++ lstrip s /\ blank ws = true
    /\ is_space_at (first_char (lstrip s)) = false.
Proof.
  induction s as [|c s IH].
  - exists EmptyString. repeat split.
  - simpl lstrip. destruct (is_space c) eqn:Ec.
    + destruct IH as (ws & Hs & Hb & Hf).
      exists (String c ws). split; [simpl; rewrite <- Hs; reflexivity|].
      split; [|exact Hf]. unfold blank in *. simpl. rewrite Hb.
      change (accepts Space c) with (is_space c). rewrite Ec. reflexivity.
    + exists EmptyString. repeat split. simpl. exact Ec.
Qed.

Lemma rstrip_split (s : string) :
  exists ws,
    s = rstrip s ++ ws /\ blank ws = true
    /\ is_space_at (last_char (rstrip s)) = false.
Proof.
  induction s as [|c s IH].
  - exists EmptyString. repeat split.
  - destruct IH as (ws & Hs & Hb & Hl). rewrite rstrip_cons.
    destruct (rstrip s) as [|k kept] eqn:Er.
    + simpl in Hs. subst ws. destruct (is_space c) eqn:Ec.
      * exists (String c s). split; [reflexivity|]. split; [|reflexivity].
        unfold blank in *. simpl. rewrite Hb.
        change (accepts Space c) with (is_space c). rewrite Ec. reflexivity.
      * exists s. split; [reflexivity|]. split; [exact Hb|]. simpl. exact Ec.
    + exists ws. split; [simpl; rewrite Hs at 1; reflexivity|].
      split; [exact Hb | exact Hl].
Qed.

Lemma rstrip_first_char (s : string) :
  is_space_at (first_char s) = false ->
  is_space_at (first_char (rstrip s)) = false.
Proof.
  destruct s as [|c s]; [reflexivity|]. rewrite rstrip_cons.
  destruct (rstrip s); [destruct (is_space c)|]; intros H; simpl; auto.
Qed.

(** [strip] removes white space, and only white space, and leaves none at
    either end. *)
Lemma strip_split (s : string) :
  exists ws1 ws2,
    s = ws1 ++ strip s ++ ws2
    /\ blank ws1 = true /\ blank ws2 = true
    /\ trimmed (strip s) = true.
Proof.
  destruct (lstrip_split s) as (ws1 & Hs & Hb1 & Hf).
  destruct (rstrip_split (lstrip s)) as (ws2 & Hs' & Hb2 & Hl).
  exists ws1, ws2. unfold strip, trimmed.
  rewrite <- Hs', <- Hs, (rstrip_first_char _ Hf), Hl. repeat split; assumption.
Qed.

Lemma lstrip_trimmed (s : string) :
  is_space_at (first_char s) = false -> lstrip s = s.
Proof. destruct s as [|c s]; simpl; [reflexivity|]. intros ->. reflexivity. Qed.

Lemma rstrip_trimmed (s : string) :
  is_space_at (last_char s) = false -> rstrip s = s.
Proof.
  induction s as [|c s IH]; [reflexivity|].
  rewrite rstrip_cons. destruct s as [|d s].
  - simpl. intros ->. reflexivity.
  - intros H. rewrite IH by exact H. reflexivity.
Qed.

(** On a text with no white space at its ends [strip] changes nothing. *)
Lemma strip_trimmed (s : string) : trimmed s = true -> strip s = s.
Proof.
  unfold trimmed, strip. rewrite andb_true_iff, !negb_true_iff.
  intros [Hf Hl]. rewrite (lstrip_trimmed _ Hf). apply rstrip_trimmed, Hl.
Qed.

Lemma strip_occurs (s : string) : occurs (strip s) s.
Proof. destruct (strip_split s) as (ws1 & ws2 & Hs & _). exists ws1, ws2. exact Hs. Qed.

Lemma strip_has_char (c : ascii) (s : string) :
  has_char c s = false -> has_char c (strip s) = false.
Proof.
  destruct (strip_split s) as (ws1 & ws2 & Hs & _). rewrite Hs at 1.
  rewrite !has_char_append. intros H.
  apply orb_false_iff in H. destruct H as [_ H].
  apply orb_false_iff in H. tauto.
Qed.

(** ** Classes of characters *)

Lemma word_not_space (c : ascii) : is_word c = true -> is_space c = false.
Proof.
  destruct c as [[] [] [] [] [] [] [] []]; intros H;
    solve [reflexivity | discriminate H].
Qed.

Lemma digit_not_space (c : ascii) : is_digit c = true -> is_space c = false.
Proof.
  destruct c as [[] [] [] [] [] [] [] []]; intros H;
    solve [reflexivity | discriminate H].
Qed.

Lemma last_char_append_cons (a : string) (c : ascii) (b : string) :
  last_char (a ++ String c b) = last_char (String c b).
Proof.
  induction a as [|d a IH]; [reflexivity|].
  change (String d a ++ String c b) with (String d (a ++ String c b)).
  simpl last_char at 1. rewrite IH.
  destruct (a ++ String c b) eqn:E; [destruct a; discriminate E | reflexivity].
Qed.

Lemma all_accept_last (k : charclass) (s : string) (c : ascii) :
  all_accept k s = true -> last_char s = Some c -> accepts k c = true.
Proof.
  induction s as [|d s IH]; [discriminate|].
  simpl all_accept. rewrite andb_true_iff. intros [Hd Hs].
  destruct s as [|d' s].
  - simpl. intros H. injection H as <-. exact Hd.
  - intros H. apply IH; assumption.
Qed.

End ShapeFacts.

(** * Further properties of the extracted fields *)
Module FieldFacts.

Import Text Shapes Checker TextFacts CheckerFacts ShapeFacts.
Local Open Scope string_scope.

(** On a body of bytes below 128 the decoder changes nothing. *)
Lemma decode_seven_bit (content : string) :
  seven_bit content = true -> decode content = content.
Proof.
  induction content as [|c rest IH]; simpl; [reflexivity|].
  intros H. apply andb_true_iff in H. destruct H as [Hc Hrest].
  rewrite Hc, (IH Hrest). reflexivity.
Qed.

Lemma search_position (re : regex) :
  forall s m,
  search re s = Some m ->
  exists before s', s = before ++ s' /\ match_here re s' = Some m.
Proof.
  induction s as [|c s IH]; intros m H; simpl in H.
  - destruct (match_here re EmptyString) eqn:E; [|discriminate].
    exists EmptyString, EmptyString. split; [reflexivity | congruence].
  - destruct (match_here re (String c s)) eqn:E.
    + exists EmptyString, (String c s). split; [reflexivity | congruence].
    + destruct (IH m H) as (before & s' & -> & Hm).
      exists (String c before), s'. split; [reflexivity | exact Hm].
Qed.

Lemma search_none (re : regex) (s : string) :
  search re s = None -> forall m, in_lang re m -> ~ occurs m s.
Proof. intros Hn m Hl Ho. exact (search_complete re s m Hl Ho Hn). Qed.

(** ** [re.search] *)



(** ** The value [get_match_or_default] returns *)


(** ** The purchase date *)

Lemma purchase_date_shape (m : string) :
  in_lang PURCHASE_DATE_PATTERN m ->
  exists w sp d,
    m = w ++ String sp d
    /\ w <> EmptyString /\ all_accept Word w = true
    /\ is_space sp = true
    /\ String.length d = 4 /\ all_accept Digit d = true.
Proof.
  unfold PURCHASE_DATE_PATTERN. intros H.
  destruct (in_lang_cons_inv _ _ _ H) as (w & m1 & -> & Hw & Hwn & H1).
  destruct (in_lang_cons_inv _ _ _ H1) as (s & m2 & -> & Hs & Hsn & H2).
  destruct (in_lang_cons_inv _ _ _ H2) as (d & m3 & -> & Hd & Hdn & H3).
  apply in_lang_nil_inv in H3. subst m3. rewrite append_empty_r.
  destruct s as [|sp [|sp' s]]; try discriminate Hsn.
  exists w, sp, d. split; [reflexivity|].
  split; [intros ->; discriminate Hwn|]. split; [exact Hw|].
  split; [simpl in Hs; rewrite andb_true_r in Hs; exact Hs|].
  split; [|exact Hd].
  apply within_iff in Hdn. unfold below_hi in Hdn. simpl in Hdn. lia.
Qed.

Lemma purchase_date_trimmed (m : string) :
  in_lang PURCHASE_DATE_PATTERN m -> trimmed m = true.
Proof.
  intros H. destruct (purchase_date_shape m H) as
    (w & sp & d & -> & Hw & Hall & Hsp & Hlen & Hd).
  unfold trimmed. apply andb_true_iff. split; apply negb_true_iff.
  - destruct w as [|c w]; [congruence|]. simpl in *.
    apply andb_true_iff in Hall. apply word_not_space. tauto.
  - rewrite last_char_append_cons.
    destruct d as [|c d]; [discriminate Hlen|].
    change (last_char (String sp (String c d))) with (last_char (String c d)).
    destruct (last_char (String c d)) as [l|] eqn:El; [|reflexivity].
    apply digit_not_space. exact (all_accept_last Digit _ _ Hd El).
Qed.

(** X3: On the coverage-detail branch, for a body of bytes below 128,
    [purchase_date] is the NOT_FOUND sentinel when the body holds no run of
    word characters followed by one white-space character and four digits;
    otherwise it is such a text, as it stands in the body: [strip] has
    nothing to remove from it. *)
Theorem purchase_date_field (serial content : string) :
  seven_bit content = true ->
  let e := detail_entry serial content in
  (purchase_date e = Head.Status.not_found
   /\ forall m, in_lang PURCHASE_DATE_PATTERN m -> ~ occurs m content)
  \/ (exists w sp d,
        purchase_date e = w ++ String sp d
        /\ w <> EmptyString /\ all_accept Word w = true
        /\ is_space sp = true
        /\ String.length d = 4 /\ all_accept Digit d = true
        /\ occurs (purchase_date e) content).
Proof.
  intros H7. cbv zeta. unfold detail_entry. cbn [purchase_date].
  rewrite (decode_seven_bit content H7).
  destruct (search PURCHASE_DATE_PATTERN content) as [m|] eqn:E.
  - right. destruct (search_sound _ _ _ E) as [Hl Ho].
    simpl get_match_or_default.
    rewrite (strip_trimmed m (purchase_date_trimmed m Hl)).
    destruct (purchase_date_shape m Hl) as (w & sp & d & Hm & Hrest).
    exists w, sp, d. split; [exact Hm|]. repeat split; try tauto.
  - left. split; [reflexivity | exact (search_none _ _ E)].
Qed.

Lemma purchase_date_field_witness :
  seven_bit body_dated = true
  /\ exists w sp d,
       purchase_date (detail_entry SERIAL_1 body_dated) = w ++ String sp d
       /\ String.length d = 4.
Proof.
  split; [reflexivity|].
  destruct (purchase_date_field SERIAL_1 body_dated eq_refl)
    as [[Hn _] | (w & sp & d & Hm & _ & _ & _ & Hd & _)].
  - discriminate Hn.
  - exists w, sp, d. split; [exact Hm | exact Hd].
Defined.

(** ** The coverage expiry *)

Lemma expiry_pattern_split :
  COVERAGE_EXPIRY_PATTERN
  = ((lit "Expires on" ++ [star Space] ++ lit ":" ++ [star Space])
       ++ [plus (Except dquote_char)])%list.
Proof. reflexivity. Qed.

Lemma expiry_rejects_quote :
  Forall (fun a => accepts (cls a) dquote_char = false) COVERAGE_EXPIRY_PATTERN.
Proof. repeat constructor. Qed.

(** The text matched by the expiry pattern runs up to the next double quote
    or to the end of the text. *)
Lemma expiry_runs_to_quote (s m : string) :
  match_here COVERAGE_EXPIRY_PATTERN s = Some m ->
  exists rest,
    s = m ++ rest
    /\ (rest = EmptyString \/ first_char rest = Some dquote_char).
Proof.
  rewrite expiry_pattern_split. intros H.
  destruct (match_here_app _ _ _ _ H) as (m1 & m2 & rest & -> & -> & _ & Hb).
  rewrite match_here_cons in Hb.
  destruct (repeat_class_to_the_end (plus (Except dquote_char)) (match_here [])
              eq_refl (fun _ => eq_refl) _ _ _ Hb) as (rest' & -> & Hr).
  exists rest'. rewrite append_assoc. split; [reflexivity|].
  destruct Hr as [-> | (c & r & -> & Hc)]; [left; reflexivity | right].
  simpl in Hc. apply negb_false_iff, Ascii.eqb_eq in Hc. subst c. reflexivity.
Qed.

(** X4: On the coverage-detail branch, for a body of bytes below 128,
    [coverage_expiry] never holds a double quote.  It is the NOT_FOUND
    sentinel when no text of the pattern occurs in the body; otherwise it is
    the matched text, stripped, the match ends where the next double quote
    of the body stands or where the body ends, and the field occurs in the
    body as it is. *)
Theorem coverage_expiry_field (serial content : string) :
  seven_bit content = true ->
  let e := detail_entry serial content in
  has_char dquote_char (coverage_expiry e) = false
  /\ match search COVERAGE_EXPIRY_PATTERN content with
     | None =>
         coverage_expiry e = Head.Status.not_found
         /\ forall m, in_lang COVERAGE_EXPIRY_PATTERN m -> ~ occurs m content
     | Some group0 =>
         coverage_expiry e = strip group0
         /\ occurs (coverage_expiry e) content
         /\ exists before after,
              content = before ++ group0 ++ after
              /\ (after = EmptyString \/ first_char after = Some dquote_char)
     end.
Proof.
  intros H7. cbv zeta. unfold detail_entry. cbn [coverage_expiry].
  rewrite (decode_seven_bit content H7).
  destruct (search COVERAGE_EXPIRY_PATTERN content) as [m|] eqn:E.
  - destruct (search_sound _ _ _ E) as [Hl Ho]. simpl get_match_or_default.
    split; [|split; [reflexivity|split]].
    + apply strip_has_char.
      exact (in_lang_has_char _ _ _ expiry_rejects_quote Hl).
    + exact (occurs_trans _ _ _ (strip_occurs m) Ho).
    + destruct (search_position _ _ _ E) as (before & s' & Hs & Hm).
      destruct (expiry_runs_to_quote _ _ Hm) as (rest & -> & Hr).
      exists before, rest. split; assumption.
  - split; [reflexivity|]. split; [reflexivity | exact (search_none _ _ E)].
Qed.

Lemma coverage_expiry_field_witness :
  seven_bit body_dated = true
  /\ coverage_expiry (detail_entry SERIAL_1 body_dated) = "Expires on: March 5, 2026"
  /\ has_char dquote_char (coverage_expiry (detail_entry SERIAL_1 body_dated))
     = false.
Proof.
  split; [reflexivity|]. split; [reflexivity|].
  exact (proj1 (coverage_expiry_field SERIAL_1 body_dated eq_refl)).
Defined.

(** The first position at which the expiry pattern can match holds a
    capital E. *)
Lemma search_expiry_skips (before s : string) :
  has_char "E" before = false ->
  search COVERAGE_EXPIRY_PATTERN (before ++ s) = search COVERAGE_EXPIRY_PATTERN s.
Proof.
  induction before as [|c before IH]; intros H; [reflexivity|].
  simpl in H. apply orb_false_iff in H. destruct H as [Hc Hrest].
  change (String c before ++ s) with (String c (before ++ s)).
  cbn [search].
  change COVERAGE_EXPIRY_PATTERN
    with (one (Lit "E") :: (lit "xpires on" ++ [star Space] ++ lit ":"
                            ++ [star Space; plus (Except dquote_char)]))%list
    at 1.
  rewrite match_here_one_lit, Hc. exact (IH Hrest).
Qed.

Lemma search_quoted_expiry (after : string) :
  search COVERAGE_EXPIRY_PATTERN (quoted_expiry ++ after) = Some "Expires on: ".
Proof. vm_compute. reflexivity. Qed.

Lemma search_plain_expiry (after : string) :
  search COVERAGE_EXPIRY_PATTERN (plain_expiry ++ after)
  = Some "Expires on: 2026-01-01".
Proof. vm_compute. reflexivity. Qed.

(** C6, amended: for a body of bytes below 128 on the coverage-detail branch
    the record has the status VALID and [coverage_expiry] is the whole text
    the expiry pattern matches, stripped, not the date alone: it begins with
    [Expires on], holds no double quote, and the match ends where the next
    double quote of the body stands or where the body ends; it is the
    NOT_FOUND sentinel when the pattern matches nowhere.  A body whose first
    capital E begins the text [Expires on: Q2026-01-01Q] ([Q] the double
    quote) gives [Expires on:], and one whose first capital E begins
    [Expires on: 2026-01-01Q] gives [Expires on: 2026-01-01].  When the
    purchase-date pattern matches nowhere in the body, [purchase_date] is
    the NOT_FOUND sentinel. *)
Theorem C6_detail_branch_fields (serial content : string) :
  seven_bit content = true ->
  classify content = CoverageDetail ->
  exists e,
    RESULT_ENTRY serial content = Some e
    /\ status e = Head.Status.valid
    /\ match search COVERAGE_EXPIRY_PATTERN content with
       | None => coverage_expiry e = Head.Status.not_found
       | Some group0 =>
           coverage_expiry e = strip group0
           /\ has_char dquote_char group0 = false
           /\ prefix "Expires on" (coverage_expiry e) = true
           /\ has_char dquote_char (coverage_expiry e) = false
           /\ exists before after,
                content = before ++ group0 ++ after
                /\ (after = EmptyString \/ first_char after = Some dquote_char)
       end
    /\ (search PURCHASE_DATE_PATTERN content = None ->
        purchase_date e = Head.Status.not_found)
    /\ (forall before after,
          content = before ++ quoted_expiry ++ after ->
          has_char "E" before = false ->
          coverage_expiry e = "Expires on:")
    /\ (forall before after,
          content = before ++ plain_expiry ++ after ->
          has_char "E" before = false ->
          coverage_expiry e = "Expires on: 2026-01-01").
Proof.
  intros H7 Hc. exists (detail_entry serial content).
  split; [unfold RESULT_ENTRY; rewrite Hc; reflexivity|].
  split; [reflexivity|].
  unfold detail_entry. cbn [coverage_expiry purchase_date].
  rewrite (decode_seven_bit content H7).
  split; [|split; [|split]].
  - destruct (search COVERAGE_EXPIRY_PATTERN content) as [m|] eqn:E;
      [|reflexivity].
    simpl get_match_or_default. split; [reflexivity|].
    split; [exact (in_lang_has_char _ _ _ expiry_rejects_quote
                     (proj1 (search_sound _ _ _ E)))|].
    split; [exact (expiry_begins_with_its_label _ _ E)|]. split.
    + apply strip_has_char.
      exact (in_lang_has_char _ _ _ expiry_rejects_quote
               (proj1 (search_sound _ _ _ E))).
    + destruct (search_position _ _ _ E) as (before & s' & Hs & Hm).
      destruct (expiry_runs_to_quote _ _ Hm) as (rest & -> & Hr).
      exists before, rest. split; assumption.
  - intros Hn. rewrite Hn. reflexivity.
  - intros before after -> Hb.
    rewrite (search_expiry_skips _ _ Hb), search_quoted_expiry. reflexivity.
  - intros before after -> Hb.
    rewrite (search_expiry_skips _ _ Hb), search_plain_expiry. reflexivity.
Qed.

Lemma C6_detail_branch_fields_witness :
  seven_bit body_quoted_expiry = true
  /\ classify body_quoted_expiry = CoverageDetail
  /\ exists e,
       RESULT_ENTRY SERIAL_1 body_quoted_expiry = Some e
       /\ status e = Head.Status.valid
       /\ coverage_expiry e = "Expires on:".
Proof.
  split; [reflexivity|]. split; [reflexivity|].
  destruct (C6_detail_branch_fields SERIAL_1 body_quoted_expiry
              eq_refl eq_refl) as (e & He & Hs & _ & _ & Hq & _).
  exists e. split; [exact He|]. split; [exact Hs|].
  exact (Hq (COVERAGE_DETAIL_MARKER ++ " ") EmptyString eq_refl eq_refl).
Defined.

(** ** The product name *)

Lemma product_name_shape (m : string) :
  in_lang PRODUCT_NAME_PATTERN m ->
  exists mid,
    m = "MacBook" ++ mid ++ ")"
    /\ is_space_at (first_char mid) = true
    /\ has_char "(" mid = true
    /\ has_char ")" mid = false.
Proof.
  unfold PRODUCT_NAME_PATTERN. intros H.
  destruct (in_lang_lit "MacBook" _ _ H) as (m1 & -> & H1).
  destruct (in_lang_cons_inv _ _ _ H1) as (s1 & m2 & -> & Hs1 & Hn1 & H2).
  destruct (in_lang_cons_inv _ _ _ H2) as (s2 & m3 & -> & Hs2 & _ & H3).
  destruct (in_lang_cons_inv _ _ _ H3) as (s3 & m4 & -> & Hs3 & _ & H4).
  destruct (in_lang_lit "(" _ _ H4) as (m5 & -> & H5).
  destruct (in_lang_cons_inv _ _ _ H5) as (s5 & m6 & -> & Hs5 & _ & H6).
  destruct (in_lang_lit ")" [] m6) as (m7 & -> & H7).
  { rewrite app_nil_r. exact H6. }
  apply in_lang_nil_inv in H7. subst m7.
  exists (s1 ++ s2 ++ s3 ++ "(" ++ s5).
  split; [rewrite !append_assoc; reflexivity|]. split; [|split].
  - destruct s1 as [|c s1]; [discriminate Hn1|]. simpl in *.
    apply andb_true_iff in Hs1. tauto.
  - rewrite !has_char_append. simpl. rewrite !orb_true_r. reflexivity.
  - rewrite !has_char_append.
    rewrite (all_accept_has_char Space ")" s1 eq_refl Hs1).
    rewrite (all_accept_has_char (Except ")") ")" s2 eq_refl Hs2).
    rewrite (all_accept_has_char Space ")" s3 eq_refl Hs3).
    rewrite (all_accept_has_char (Except ")") ")" s5 eq_refl Hs5).
    reflexivity.
Qed.

(** X5: On the coverage-detail branch, for a body of bytes below 128,
    [product_name] is the NOT_FOUND sentinel when no text of the pattern
    occurs in the body; otherwise it is such a text as it stands in the
    body: [MacBook], white space, and on to the first closing parenthesis,
    with an opening parenthesis before it. *)
Theorem product_name_field (serial content : string) :
  seven_bit content = true ->
  let e := detail_entry serial content in
  (product_name e = Head.Status.not_found
   /\ forall m, in_lang PRODUCT_NAME_PATTERN m -> ~ occurs m content)
  \/ (exists mid,
        product_name e = "MacBook" ++ mid ++ ")"
        /\ is_space_at (first_char mid) = true
        /\ has_char "(" mid = true
        /\ has_char ")" mid = false
        /\ occurs (product_name e) content).
Proof.
  intros H7. cbv zeta. unfold detail_entry. cbn [product_name].
  rewrite (decode_seven_bit content H7).
  destruct (search PRODUCT_NAME_PATTERN content) as [m|] eqn:E.
  - right. destruct (search_sound _ _ _ E) as [Hl Ho].
    destruct (product_name_shape m Hl) as (mid & Hm & Hf & Ho' & Hc).
    simpl get_match_or_default.
    assert (Ht : trimmed m = true).
    { rewrite Hm. unfold trimmed.
      change ("MacBook" ++ mid ++ ")") with
        (String "M" ("acBook" ++ mid ++ ")")).
      simpl first_char.
      change (String "M" ("acBook" ++ mid ++ ")")) with
        ("MacBook" ++ mid ++ ")").
      rewrite <- append_assoc, last_char_append_cons. reflexivity. }
    rewrite (strip_trimmed m Ht).
    exists mid. repeat split; assumption.
  - left. split; [reflexivity | exact (search_none _ _ E)].
Qed.

Lemma product_name_field_witness :
  seven_bit body_dated = true
  /\ product_name (detail_entry SERIAL_1 body_dated)
     = "MacBook Pro (13-inch, 2020)"
  /\ exists mid,
       product_name (detail_entry SERIAL_1 body_dated) = "MacBook" ++ mid ++ ")"
       /\ has_char ")" mid = false.
Proof.
  split; [reflexivity|]. split; [reflexivity|].
  destruct (product_name_field SERIAL_1 body_dated eq_refl)
    as [[Hn _] | (mid & Hm & _ & _ & Hc & _)].
  - discriminate Hn.
  - exists mid. split; [exact Hm | exact Hc].
Defined.

End FieldFacts.

(** * Further properties of [exponential_backoff] *)
Module BackoffMore.

Import QArith Qminmax Qpower Lqa.
Import Backoff BackoffFacts.
Local Open Scope Q_scope.

(** X6: The base of the delay grows with the attempt number: it is [2^n] up to
    attempt 5, it is 60 from attempt 6 on, and it never goes down from one
    attempt to a later one. *)
Theorem wait_time_steps (n m : Z) :
  (n <= m)%Z ->
  wait_time n <= wait_time m
  /\ ((0 <= n <= 5)%Z -> wait_time n == inject_Z (2 ^ n))
  /\ ((6 <= n)%Z -> wait_time n == 60).
Proof.
  intros Hnm. split; [|split].
  - pose proof (wait_time_not_negative m) as Hm. unfold wait_time in *.
    destruct (Z.ltb_spec n (-1074)) as [Hn|Hn].
    + destruct (m <? -1074)%Z; [lra | exact Hm].
    + destruct (Z.ltb_spec m (-1074)) as [Hlow|_]; [lia|].
      apply Q.min_le_compat_l.
      apply Qpower_le_compat_l; [exact Hnm | lra].
  - intros Hn. rewrite wait_time_integer by lia.
    assert (H : (2 ^ n <= 2 ^ 5)%Z) by (apply Z.pow_le_mono_r; lia).
    change (2 ^ 5)%Z with 32%Z in H. rewrite Z.min_r by lia. reflexivity.
  - intros Hn. rewrite wait_time_integer by lia.
    assert (H : (2 ^ 6 <= 2 ^ n)%Z) by (apply Z.pow_le_mono_r; lia).
    change (2 ^ 6)%Z with 64%Z in H. rewrite Z.min_l by lia. reflexivity.
Qed.

Lemma wait_time_steps_witness :
  (3 <= 7)%Z
  /\ wait_time 3 <= wait_time 7
  /\ wait_time 3 == 8
  /\ wait_time 7 == 60.
Proof.
  split; [lia|].
  destruct (wait_time_steps 3 7 ltac:(lia)) as (Hle & H3 & _).
  destruct (wait_time_steps 7 7 ltac:(lia)) as (_ & _ & H7).
  split; [exact Hle|]. split; [apply H3; lia | apply H7; lia].
Defined.

(** X7: Whatever the attempt number, negative ones included, the delay is
    never negative and never above 90 seconds.  From attempt 0 on it is at
    least half a second, between half and one and a half times the base. *)
Theorem backoff_sleep_bounds (retry_attempt : Z) (u : Q) :
  0 <= u <= 1 ->
  0 <= exponential_backoff retry_attempt u <= 90
  /\ ((0 <= retry_attempt)%Z ->
      0.5 <= exponential_backoff retry_attempt u
      /\ 0.5 * wait_time retry_attempt
         <= exponential_backoff retry_attempt u
         <= 1.5 * wait_time retry_attempt).
Proof.
  intros Hu. unfold exponential_backoff, random_wait.
  pose proof (jitter_range u Hu) as Hj.
  pose proof (wait_time_not_negative retry_attempt) as Hp.
  pose proof (wait_time_capped retry_attempt) as Hc.
  split.
  - set (j := uniform 0.5 1.5 u) in *. set (w := wait_time retry_attempt) in *.
    split; nra.
  - intros Hn. pose proof (wait_time_at_least_1 retry_attempt Hn) as H1.
    set (j := uniform 0.5 1.5 u) in *. set (w := wait_time retry_attempt) in *.
    repeat split; nra.
Qed.

Lemma backoff_sleep_bounds_witness :
  0 <= 0.25 <= 1
  /\ 0 <= exponential_backoff (-3) 0.25 <= 90
  /\ 0.5 <= exponential_backoff 3 0.25.
Proof.
  split; [split; lra|].
  split.
  - exact (proj1 (backoff_sleep_bounds (-3) 0.25 ltac:(split; lra))).
  - exact (proj1 (proj2 (backoff_sleep_bounds 3 0.25 ltac:(split; lra))
                    ltac:(lia))).
Defined.

End BackoffMore.

(** * Further properties of runs *)
Module RunFacts.

Import Text Shapes Checker Traces TextFacts ShapeFacts CheckerFacts.
Local Open Scope string_scope.

(** ** The token in use *)

Lemma auth_token_step (st st' : state) (a : answer) :
  step st a = Some st' ->
  auth_token st' = token_in_use (auth_token st) [a].
Proof.
  intros H. step_cases st a H Hat ltac:(injection H as <-; reflexivity).
  - injection H as <-. destruct header; reflexivity.
  - destruct (captcha_attempt response);
      [|destruct (S attempt <? 3)%nat]; injection H as <-; reflexivity.
  - injection H as <-. destruct header; reflexivity.
  - destruct (classify content).
    1: { injection H as <-. reflexivity. }
    1: { destruct (6 <=? _)%nat; injection H as <-; reflexivity. }
    all: destruct (RESULT_ENTRY (current st) content); [|discriminate H];
      injection H as <-; unfold next_serial; destruct (pending st); reflexivity.
  - injection H as <-. destruct header; reflexivity.
Qed.

Lemma token_in_use_cons (t : option string) (a : answer) (rest : list answer) :
  token_in_use t (a :: rest) = token_in_use (token_in_use t [a]) rest.
Proof. destruct a; reflexivity. Qed.

Lemma auth_token_run :
  forall answers st st',
  run st answers = Some st' ->
  auth_token st' = token_in_use (auth_token st) answers.
Proof.
  induction answers as [|a rest IH]; intros st st' H.
  - injection H as <-. reflexivity.
  - simpl in H. destruct (step st a) as [mid|] eqn:E; [|discriminate].
    rewrite token_in_use_cons, <- (auth_token_step _ _ _ E). apply IH, H.
Qed.

Lemma holds_token_step (st st' : state) (a : answer) :
  holds_token st -> step st a = Some st' -> holds_token st'.
Proof.
  unfold holds_token. intros Hh H.
  step_cases st a H Hat ltac:(injection H as <-; exact I).
  - injection H as <-. destruct header; simpl; [discriminate | exact I].
  - destruct (captcha_attempt response);
      [|destruct (S attempt <? 3)%nat]; injection H as <-; exact Hh.
  - injection H as <-. destruct header; simpl; [discriminate | exact I].
  - destruct (classify content).
    1: { injection H as <-. exact Hh. }
    1: { destruct (6 <=? _)%nat; injection H as <-; exact Hh. }
    all: destruct (RESULT_ENTRY (current st) content); [|discriminate H];
      injection H as <-; unfold next_serial; destruct (pending st); exact I.
  - injection H as <-. destruct header; simpl; [discriminate | exact I].
Qed.

(** X10: Every captcha fetch and every coverage query is made with a token in
    hand, and that token is the one the token endpoint issued last. *)
Theorem calls_carry_latest_token
    (serial_numbers : list string) (file : option sheet)
    (answers : list answer) (st : state) :
  run (main serial_numbers file) answers = Some st ->
  auth_token st = token_in_use None answers
  /\ ((exists attempt, at_ st = FetchCaptcha attempt)
      \/ (exists solution, at_ st = SubmitQuery solution) ->
      exists token,
        auth_token st = Some token
        /\ token_in_use None answers = Some token).
Proof.
  intros Hrun.
  pose proof (auth_token_run _ _ _ Hrun) as Ht.
  assert (E : auth_token (main serial_numbers file) = None)
    by (destruct serial_numbers; reflexivity).
  rewrite E in Ht. split; [exact Ht|].
  assert (Hh : holds_token st).
  { eapply (run_preserves holds_token);
      [intros ? ? ? ? ?; eapply holds_token_step; eassumption | | exact Hrun].
    unfold holds_token. destruct serial_numbers; exact I. }
  unfold holds_token in Hh. intros Hat.
  destruct (auth_token st) as [token|] eqn:Ea.
  - exists token. split; [reflexivity | symmetry; exact Ht].
  - destruct Hat as [[k Hat] | [s Hat]]; rewrite Hat in Hh;
      contradiction Hh; reflexivity.
Qed.

Lemma calls_carry_latest_token_witness :
  exists st token,
    run (main [SERIAL_1] None) answers_refresh_after_attempts = Some st
    /\ auth_token st = Some token
    /\ token_in_use None answers_refresh_after_attempts = Some token.
Proof.
  eexists.
  destruct (proj2 (calls_carry_latest_token [SERIAL_1] None
                     answers_refresh_after_attempts _ eq_refl))
    as (token & Ha & Hl).
  - left. exists 0. reflexivity.
  - exists token. split; [reflexivity|]. split; assumption.
Defined.

(** ** How a run stands after its last answer *)

Lemma captcha_attempt_read (response : captcha_response) (solution : string) :
  captcha_attempt response = Some solution <->
  contains CAPTCHA_BUSY_MARKER (captcha_content response) = false
  /\ binaryValue response <> None
  /\ exists first others,
       readtext response = first :: others /\ text first = solution.
Proof.
  unfold captcha_attempt.
  destruct (contains CAPTCHA_BUSY_MARKER (captcha_content response)).
  - split; [discriminate | intros [H _]; discriminate H].
  - destruct (binaryValue response) as [image|].
    + destruct (readtext response) as [|first others].
      * split; [discriminate | intros (_ & _ & f & o & H & _); discriminate H].
      * split.
        -- intros H. injection H as <-. split; [reflexivity|].
           split; [discriminate|]. exists first, others. split; reflexivity.
        -- intros (_ & _ & f & o & H & <-). injection H as <- _. reflexivity.
    + split; [discriminate | intros (_ & H & _); contradiction H; reflexivity].
Qed.



(** X12: The captcha answer the script submits is the text of the first detection
    of the captcha it fetched last, whose body was not the busy page and held
    an image. *)
Theorem submitted_answer_is_latest_reading
    (serial_numbers : list string) (file : option sheet)
    (answers : list answer) (st : state) (solution : string) :
  run (main serial_numbers file) answers = Some st ->
  at_ st = SubmitQuery solution ->
  exists earlier response first others,
    answers = (earlier ++ [CaptchaReply response])%list
    /\ contains CAPTCHA_BUSY_MARKER (captcha_content response) = false
    /\ binaryValue response <> None
    /\ readtext response = first :: others
    /\ text first = solution.
Proof.
  intros Hrun Hat'.
  destruct (answers_from_the_end answers) as [-> | (earlier & a & ->)].
  - injection Hrun as <-. destruct serial_numbers; discriminate Hat'.
  - destruct (run_last _ _ _ _ Hrun) as (mid & _ & H). clear Hrun.
    step_cases mid a H Hat ltac:(injection H as <-; discriminate Hat').
    + injection H as <-. destruct header; discriminate Hat'.
    + destruct (captcha_attempt response) as [sol|] eqn:Ec.
      * injection H as <-. simpl in Hat'. injection Hat' as ->.
        apply captcha_attempt_read in Ec.
        destruct Ec as (Hb & Hi & first & others & Hr & Ht).
        exists earlier, response, first, others. repeat split; assumption.
      * destruct (S attempt <? 3)%nat; injection H as <-; discriminate Hat'.
    + injection H as <-. destruct header; discriminate Hat'.
    + destruct (classify content).
      1: { injection H as <-. discriminate Hat'. }
      1: { destruct (6 <=? _)%nat; injection H as <-; discriminate Hat'. }
      all: destruct (RESULT_ENTRY (current mid) content); [|discriminate H];
        injection H as <-; unfold next_serial in Hat';
        destruct (pending mid); discriminate Hat'.
    + injection H as <-. destruct header; discriminate Hat'.
Qed.

Lemma submitted_answer_is_latest_reading_witness :
  exists earlier response first others,
    [TokenReply (Some "token-1"); CaptchaReply (solved sample_solution)]
    = (earlier ++ [CaptchaReply response])%list
    /\ contains CAPTCHA_BUSY_MARKER (captcha_content response) = false
    /\ binaryValue response <> None
    /\ readtext response = first :: others
    /\ text first = "7XK4".
Proof.
  apply (submitted_answer_is_latest_reading [SERIAL_1] None
           [TokenReply (Some "token-1"); CaptchaReply (solved sample_solution)]
           _ "7XK4" eq_refl eq_refl).
Defined.

(** ** What the output depends on *)

Lemma unprocessed_step (st st' : state) (a : answer) :
  step st a = Some st' ->
  match a with
  | CoverageReply content =>
      if terminal (classify content)
      then exists e,
             RESULT_ENTRY (current st) content = Some e
             /\ unprocessed st = current st :: unprocessed st'
             /\ output st' = append_row (row_of e) (output st)
      else unprocessed st' = unprocessed st /\ output st' = output st
  | _ => unprocessed st' = unprocessed st /\ output st' = output st
  end.
Proof.
  intros H.
  step_cases st a H Hat
    ltac:(injection H as <-; split; [|reflexivity];
          rewrite !unprocessed_running by (simpl; rewrite ?Hat; discriminate);
          reflexivity).
  - injection H as <-.
    destruct header; (split; [|reflexivity]);
      rewrite !unprocessed_running by (simpl; rewrite ?Hat; discriminate);
      reflexivity.
  - destruct (captcha_attempt response);
      [|destruct (S attempt <? 3)%nat]; injection H as <-;
      (split; [|reflexivity]);
      rewrite !unprocessed_running by (simpl; rewrite ?Hat; discriminate);
      reflexivity.
  - injection H as <-.
    destruct header; (split; [|reflexivity]);
      rewrite !unprocessed_running by (simpl; rewrite ?Hat; discriminate);
      reflexivity.
  - destruct (classify content) eqn:Ec; simpl terminal; cbv iota.
    1: { injection H as <-. split; [|reflexivity].
         rewrite !unprocessed_running by (simpl; rewrite ?Hat; discriminate).
         reflexivity. }
    1: { destruct (6 <=? _)%nat; injection H as <-; (split; [|reflexivity]);
         rewrite !unprocessed_running by (simpl; rewrite ?Hat; discriminate);
         reflexivity. }
    all: destruct (RESULT_ENTRY (current st) content) as [e|] eqn:Ee;
      [|discriminate H]; injection H as <-; exists e;
      (split; [reflexivity|]); (split; [|apply output_next_serial]);
      rewrite (unprocessed_running st) by (rewrite Hat; discriminate);
      unfold next_serial, unprocessed; destruct (pending st); reflexivity.
  - injection H as <-.
    destruct header; (split; [|reflexivity]);
      rewrite !unprocessed_running by (simpl; rewrite ?Hat; discriminate);
      reflexivity.
Qed.

Lemma records_of_run :
  forall answers st st',
  run st answers = Some st' ->
  exists records,
    Forall2 built_from
      (combine (unprocessed st) (terminal_bodies answers)) records
    /\ appended (output st) (output st') records.
Proof.
  induction answers as [|a rest IH]; intros st st' H.
  - injection H as <-. exists []. split.
    + destruct (unprocessed st); constructor.
    + apply appended_nothing.
  - simpl in H. destruct (step st a) as [mid|] eqn:E; [|discriminate].
    destruct (IH mid st' H) as (records & Hf & Happ).
    pose proof (unprocessed_step _ _ _ E) as Hs.
    destruct a as [header|response|content|error].
    + destruct Hs as [Hu Ho]. exists records. simpl terminal_bodies.
      rewrite <- Hu, <- Ho. split; assumption.
    + destruct Hs as [Hu Ho]. exists records. simpl terminal_bodies.
      rewrite <- Hu, <- Ho. split; assumption.
    + simpl terminal_bodies. destruct (terminal (classify content)).
      * destruct Hs as (e & He & Hu & Ho). exists (e :: records).
        rewrite Hu. simpl combine. split.
        -- constructor; [exact He | exact Hf].
        -- apply appended_first. rewrite <- Ho. exact Happ.
      * destruct Hs as [Hu Ho]. exists records.
        rewrite <- Hu, <- Ho. split; assumption.
    + destruct Hs as [Hu Ho]. exists records. simpl terminal_bodies.
      rewrite <- Hu, <- Ho. split; assumption.
Qed.

(** X13: What a run writes is fixed by the serial numbers and the coverage bodies
    that end a handling, taken in order: the i-th record is the one built
    from the i-th serial number and the i-th such body.  Tokens, captchas,
    rate-limit answers and rejected captchas leave no trace in the sheet. *)
Theorem output_is_built_from_terminal_bodies
    (serial_numbers : list string) (file : option sheet)
    (answers : list answer) (st : state) :
  run (main serial_numbers file) answers = Some st ->
  exists records,
    Forall2 built_from
      (combine serial_numbers (terminal_bodies answers)) records
    /\ appended (output (main serial_numbers file)) (output st) records.
Proof.
  intros Hrun. destruct serial_numbers as [|s rest].
  - destruct (halted_run (main [] file) st answers eq_refl Hrun) as [-> ->].
    exists []. split; [constructor | apply appended_nothing].
  - exact (records_of_run _ _ _ Hrun).
Qed.

Lemma output_is_built_from_terminal_bodies_witness :
  exists st records,
    run (main [SERIAL_1; SERIAL_2] None) answers_abort_on_second = Some st
    /\ Forall2 built_from
         (combine [SERIAL_1; SERIAL_2]
            (terminal_bodies answers_abort_on_second)) records
    /\ appended (output (main [SERIAL_1; SERIAL_2] None)) (output st) records.
Proof.
  eexists.
  destruct (output_is_built_from_terminal_bodies [SERIAL_1; SERIAL_2] None
              answers_abort_on_second _ eq_refl) as (records & Hf & Ha).
  exists records. split; [reflexivity|]. split; assumption.
Defined.

(** ** Retries without end *)

Lemma state_eta (st : state) :
  {| at_ := at_ st; current := current st; pending := pending st;
     auth_token := auth_token st;
     CAPTCHA_INVALID_COUNT := CAPTCHA_INVALID_COUNT st;
     output := output st |} = st.
Proof. destruct st; reflexivity. Qed.

Lemma goto_same (st : state) (c : control) : at_ st = c -> goto c st = st.
Proof. intros <-. apply state_eta. Qed.

Lemma failed_attempts_run :
  forall failed st attempt,
  at_ st = FetchCaptcha attempt ->
  Forall (fun response => captcha_attempt response = None) failed ->
  List.length failed <= 2 - attempt ->
  run st (map CaptchaReply failed)
  = Some (goto (FetchCaptcha (attempt + List.length failed)) st).
Proof.
  induction failed as [|response failed IH]; intros st attempt Hat Hall Hlen.
  - simpl. rewrite Nat.add_0_r, (goto_same st _ Hat). reflexivity.
  - inversion Hall as [|? ? Hnone Hrest]; subst. cbn [List.length] in Hlen.
    cbn [map run]. unfold step at 1. rewrite Hat, Hnone.
    destruct (Nat.ltb_spec (S attempt) 3) as [_|Hge]; [|lia].
    rewrite (IH (goto (FetchCaptcha (S attempt)) st) (S attempt) eq_refl Hrest)
      by lia.
    cbn [List.length]. rewrite Nat.add_succ_r. reflexivity.
Qed.

Lemma retry_round_run
    (st : state) (attempt : nat)
    (r : list captcha_response * captcha_response * string) :
  at_ st = FetchCaptcha attempt ->
  rate_limited (2 - attempt) r ->
  run st (retry_round r) = Some (goto (FetchCaptcha 0) st).
Proof.
  intros Hat (Hlen & Hfailed & Hread & Hc). unfold retry_round.
  rewrite run_app, (failed_attempts_run _ st attempt Hat Hfailed) by lia.
  destruct (captcha_attempt (snd (fst r))) as [solution|] eqn:Er;
    [|contradiction Hread; reflexivity].
  cbn [run]. unfold step at 1. cbn [at_ goto]. rewrite Er.
  unfold step at 1. cbn [at_ goto]. rewrite Hc. reflexivity.
Qed.

Lemma retry_rounds_run :
  forall more st,
  at_ st = FetchCaptcha 0 ->
  Forall (rate_limited 2) more ->
  run st (flat_map retry_round more) = Some st.
Proof.
  induction more as [|r more IH]; intros st Hat Hall; [reflexivity|].
  inversion Hall as [|? ? Hr Hrest]; subst.
  cbn [flat_map]. rewrite run_app, (retry_round_run st 0 r Hat Hr).
  rewrite (goto_same st _ Hat). exact (IH st Hat Hrest).
Qed.

(** X14: A pass of the [while] loop whose coverage answer is rate limited
    puts the script back at the first captcha attempt, wherever in the three
    attempts the pass began and however many of them failed before the
    captcha was read, with the token, the invalid-captcha counter, the
    serial number and the output as they were: no variable keeps count of
    such answers, so any number of these passes is taken, with nothing
    written and no end of the serial number in sight. *)
Theorem rate_limit_rounds_change_nothing
    (st : state) (attempt : nat)
    (first : list captcha_response * captcha_response * string)
    (more : list (list captcha_response * captcha_response * string)) :
  at_ st = FetchCaptcha attempt ->
  rate_limited (2 - attempt) first ->
  Forall (rate_limited 2) more ->
  run st (retry_round first ++ flat_map retry_round more)
  = Some (goto (FetchCaptcha 0) st).
Proof.
  intros Hat Hfirst Hmore.
  rewrite run_app, (retry_round_run st attempt first Hat Hfirst).
  exact (retry_rounds_run more (goto (FetchCaptcha 0) st) eq_refl Hmore).
Qed.

Lemma rate_limit_rounds_change_nothing_witness :
  run (main [SERIAL_1] None) [TokenReply (Some "token-1"); CaptchaReply unread]
  = Some after_one_failed_attempt
  /\ at_ after_one_failed_attempt = FetchCaptcha 1
  /\ rate_limited (2 - 1) late_reading
  /\ Forall (rate_limited 2) (repeat later_reading 25)
  /\ run after_one_failed_attempt
       (retry_round late_reading ++ flat_map retry_round (repeat later_reading 25))
     = Some (goto (FetchCaptcha 0) after_one_failed_attempt).
Proof.
  assert (Hread : captcha_attempt (solved sample_solution) <> None)
    by (vm_compute; discriminate).
  assert (Hnone : captcha_attempt unread = None) by (vm_compute; reflexivity).
  assert (Hc : classify RATE_LIMIT_MARKER = RateLimited)
    by (vm_compute; reflexivity).
  assert (H1 : rate_limited (2 - 1) late_reading).
  { split; [simpl; lia|]. split; [repeat constructor; exact Hnone|].
    split; [exact Hread | exact Hc]. }
  assert (H2 : Forall (rate_limited 2) (repeat later_reading 25)).
  { apply Forall_forall. intros r Hr. apply repeat_spec in Hr. subst r.
    split; [simpl; lia|]. split; [repeat constructor; exact Hnone|].
    split; [exact Hread | exact Hc]. }
  split; [vm_compute; reflexivity|].
  split; [reflexivity|]. split; [exact H1|]. split; [exact H2|].
  exact (rate_limit_rounds_change_nothing after_one_failed_attempt 1
           late_reading (repeat later_reading 25) eq_refl H1 H2).
Defined.

(** ** Branches and statuses *)

(** X15: No branch of the chain is dead: for each of the eight outcomes the
    marker of the branch, taken as the whole body, is classified as that
    outcome, so no marker holds a marker tested before it. *)
Theorem every_branch_is_reachable (o : QueryOutcome) :
  classify (body_for o) = o.
Proof. destruct o; reflexivity. Qed.

(** X16: The status column tells the branches apart: a record has the status of
    the branch that built it, two records with the same status come from the
    same branch, and unless the status is [VALID] the three data fields
    are [N/A]. *)
Theorem status_identifies_branch
    (serial content : string) (e : ResultRecord) :
  RESULT_ENTRY serial content = Some e ->
  status_of (classify content) = Some (status e)
  /\ (forall serial' content' e',
        RESULT_ENTRY serial' content' = Some e' ->
        status e' = status e -> classify content' = classify content)
  /\ (status e <> Head.Status.valid ->
      product_name e = "N/A" /\ purchase_date e = "N/A"
      /\ coverage_expiry e = "N/A").
Proof.
  intros He.
  assert (Hs : forall s c r, RESULT_ENTRY s c = Some r ->
                 status_of (classify c) = Some (status r)).
  { intros s c r. unfold RESULT_ENTRY.
    destruct (classify c); intros H; try discriminate H;
      injection H as <-; reflexivity. }
  split; [exact (Hs _ _ _ He)|]. split.
  - intros serial' content' e' He' Heq.
    pose proof (Hs _ _ _ He) as H1. pose proof (Hs _ _ _ He') as H2.
    rewrite Heq in H2.
    destruct (classify content), (classify content');
      try discriminate H1; try discriminate H2; try reflexivity;
      exfalso; rewrite <- H1 in H2; discriminate H2.
  - unfold RESULT_ENTRY in He.
    destruct (classify content); try discriminate He;
      injection He as <-; intros Hv;
      solve [repeat split | contradiction Hv; reflexivity].
Qed.

Lemma status_identifies_branch_witness :
  status_of (classify EXPIRED_MARKER)
  = Some (status (plain_entry SERIAL_1 "Fully valid")).
Proof.
  apply (status_identifies_branch SERIAL_1 EXPIRED_MARKER
           (plain_entry SERIAL_1 "Fully valid")).
  reflexivity.
Defined.

(** ** What a record costs *)

Lemma filter_length_cons {A : Type} (f : A -> bool) (a : A) (rest : list A) :
  List.length (filter f (a :: rest))
  = List.length (filter f [a]) + List.length (filter f rest).
Proof. simpl. destruct (f a); reflexivity. Qed.

Lemma terminal_bodies_cons (a : answer) (rest : list answer) :
  terminal_bodies (a :: rest) = (terminal_bodies [a] ++ terminal_bodies rest)%list.
Proof.
  destruct a as [header|response|content|error]; try reflexivity.
  simpl. destruct (terminal (classify content)); reflexivity.
Qed.

Lemma cost_step (st st' : state) (a : answer) :
  step st a = Some st' ->
  List.length (terminal_bodies [a]) + on_a_token st'
  <= tokens_issued [a] + on_a_token st
  /\ queries_sent [a] + submitting st' <= captchas_fetched [a] + submitting st.
Proof.
  unfold on_a_token, submitting, tokens_issued, captchas_fetched, queries_sent.
  intros H. step_cases st a H Hat ltac:(injection H as <-; simpl; lia).
  - injection H as <-. destruct header; simpl; lia.
  - destruct (captcha_attempt response);
      [|destruct (S attempt <? 3)%nat]; injection H as <-; simpl; lia.
  - injection H as <-. destruct header; simpl; lia.
  - simpl terminal_bodies. destruct (classify content); simpl terminal; cbv iota.
    1: { injection H as <-. simpl. lia. }
    1: { destruct (6 <=? _)%nat; injection H as <-; simpl; lia. }
    all: destruct (RESULT_ENTRY (current st) content); [|discriminate H];
      injection H as <-; unfold next_serial; destruct (pending st); simpl; lia.
  - injection H as <-. destruct header; simpl; lia.
Qed.

Lemma cost_run :
  forall answers st st',
  run st answers = Some st' ->
  List.length (terminal_bodies answers) + on_a_token st'
  <= tokens_issued answers + on_a_token st
  /\ queries_sent answers + submitting st'
     <= captchas_fetched answers + submitting st.
Proof.
  induction answers as [|a rest IH]; intros st st' H.
  - injection H as <-. simpl. unfold tokens_issued, queries_sent,
      captchas_fetched. simpl. lia.
  - simpl in H. destruct (step st a) as [mid|] eqn:E; [|discriminate].
    destruct (cost_step _ _ _ E) as [H1 H2].
    destruct (IH _ _ H) as [H3 H4].
    rewrite terminal_bodies_cons, length_app.
    unfold tokens_issued, queries_sent, captchas_fetched in *.
    rewrite !(filter_length_cons _ a rest). lia.
Qed.

Lemma terminal_bodies_are_queries (answers : list answer) :
  List.length (terminal_bodies answers) <= queries_sent answers.
Proof.
  unfold queries_sent.
  induction answers as [|[header|response|content|error] rest IH];
    simpl; try lia.
  destruct (terminal (classify content)); simpl; lia.
Qed.

Lemma settle_all_costs (token : string) (solution : detection)
    (contents : list string) :
  tokens_issued (settle_all token solution contents) = List.length contents
  /\ captchas_fetched (settle_all token solution contents) = List.length contents
  /\ queries_sent (settle_all token solution contents) = List.length contents.
Proof.
  unfold tokens_issued, captchas_fetched, queries_sent.
  induction contents as [|c cs IH]; [repeat split|].
  simpl. lia.
Qed.

Lemma terminal_bodies_count :
  forall answers st st',
  run st answers = Some st' ->
  List.length (terminal_bodies answers) + List.length (unprocessed st')
  = List.length (unprocessed st).
Proof.
  induction answers as [|a rest IH]; intros st st' H.
  - injection H as <-. reflexivity.
  - simpl in H. destruct (step st a) as [mid|] eqn:E; [|discriminate].
    specialize (IH _ _ H). pose proof (unprocessed_step _ _ _ E) as Hs.
    rewrite terminal_bodies_cons, length_app.
    destruct a as [header|response|content|error]; simpl terminal_bodies.
    + destruct Hs as [Hu _]. rewrite <- Hu. simpl. exact IH.
    + destruct Hs as [Hu _]. rewrite <- Hu. simpl. exact IH.
    + destruct (terminal (classify content)).
      * destruct Hs as (e & _ & Hu & _). rewrite Hu. simpl. lia.
      * destruct Hs as [Hu _]. rewrite <- Hu. simpl. exact IH.
    + destruct Hs as [Hu _]. rewrite <- Hu. simpl. exact IH.
Qed.

(** X17: Each record the script writes has cost it at least one token, one
    captcha fetch and one coverage query of its own: in any run the number
    of records written is at most the number of tokens issued and at most
    the number of coverage queries, which is at most the number of captchas
    fetched.  The run in which every serial number is settled at once uses
    exactly one of each per serial number. *)
Theorem records_cost_their_calls
    (serial_numbers : list string) (file : option sheet)
    (answers : list answer) (st : state) :
  run (main serial_numbers file) answers = Some st ->
  (exists records,
     appended (output (main serial_numbers file)) (output st) records
     /\ List.length records = List.length (terminal_bodies answers)
     /\ List.length records <= tokens_issued answers
     /\ List.length records <= queries_sent answers
     /\ queries_sent answers <= captchas_fetched answers)
  /\ forall token solution contents,
       tokens_issued (settle_all token solution contents) = List.length contents
       /\ captchas_fetched (settle_all token solution contents)
          = List.length contents
       /\ queries_sent (settle_all token solution contents)
          = List.length contents.
Proof.
  intros Hrun. split; [|intros; apply settle_all_costs].
  assert (Hrec : exists records,
            Forall2 built_from
              (combine serial_numbers (terminal_bodies answers)) records
            /\ appended (output (main serial_numbers file)) (output st) records).
  { destruct serial_numbers as [|s rest].
    - destruct (halted_run (main [] file) st answers eq_refl Hrun) as [-> ->].
      exists []. split; [constructor | apply appended_nothing].
    - exact (records_of_run _ _ _ Hrun). }
  destruct Hrec as (records & Hf & Happ).
  destruct (cost_run _ _ _ Hrun) as [H1 H2].
  assert (H0 : on_a_token (main serial_numbers file) = 0
               /\ submitting (main serial_numbers file) = 0)
    by (destruct serial_numbers; split; reflexivity).
  destruct H0 as [Ha Hb]. rewrite Ha in H1. rewrite Hb in H2.
  pose proof (terminal_bodies_are_queries answers) as H3.
  exists records. split; [exact Happ|].
  assert (Hlen : List.length records = List.length (terminal_bodies answers)).
  { apply Forall2_length in Hf. rewrite <- Hf, length_combine.
    destruct serial_numbers as [|s rest].
    - destruct (halted_run (main [] file) st answers eq_refl Hrun) as [-> _].
      reflexivity.
    - pose proof (terminal_bodies_count _ _ _ Hrun) as Hc.
      change (unprocessed (main (s :: rest) file)) with (s :: rest) in Hc.
      lia. }
  rewrite Hlen. repeat split; lia.
Qed.

Lemma records_cost_their_calls_witness :
  exists st records,
    run (main [SERIAL_1; SERIAL_2] None) answers_abort_on_second = Some st
    /\ appended (output (main [SERIAL_1; SERIAL_2] None)) (output st) records
    /\ List.length records <= tokens_issued answers_abort_on_second.
Proof.
  eexists.
  destruct (proj1 (records_cost_their_calls [SERIAL_1; SERIAL_2] None
                     answers_abort_on_second _ eq_refl))
    as (records & Happ & _ & Ht & _).
  exists records. split; [reflexivity|]. split; assumption.
Defined.

End RunFacts.

(** * Further properties of [load_serial_numbers] *)
Module LoadFacts.

Import Text Shapes Checker TextFacts ShapeFacts CheckerFacts.
Local Open Scope string_scope.

Lemma lower_append (a b : string) : lower (a ++ b) = lower a ++ lower b.
Proof. induction a as [|c a IH]; simpl; [reflexivity | rewrite IH; reflexivity]. Qed.

Lemma lower_split (s a b : string) :
  lower s = a ++ b -> exists s1 s2, s = s1 ++ s2 /\ lower s1 = a /\ lower s2 = b.
Proof.
  revert s. induction a as [|c a IH]; intros s H.
  - exists EmptyString, s. repeat split. exact H.
  - destruct s as [|d s]; [discriminate H|]. simpl in H. injection H as Hc H.
    destruct (IH s H) as (s1 & s2 & -> & <- & <-).
    exists (String d s1), s2. simpl. rewrite Hc. repeat split.
Qed.

(** A column is taken for the serial column exactly when its name holds the
    letters of [serial] in a row, in any mix of upper and lower case. *)
Lemma serial_column_name (name : string) :
  contains "serial" (lower name) = true <->
  exists before word after,
    name = before ++ word ++ after /\ lower word = "serial".
Proof.
  rewrite contains_occurs. split.
  - intros (p & q & H).
    destruct (lower_split _ _ _ H) as (before & rest & -> & _ & Hr).
    destruct (lower_split _ _ _ Hr) as (word & after & -> & Hw & _).
    exists before, word, after. split; [reflexivity | exact Hw].
  - intros (before & word & after & -> & Hw).
    exists (lower before), (lower after).
    rewrite !lower_append, Hw. reflexivity.
Qed.




End LoadFacts.

(** * Properties of class Colors *)
Module ColorsFacts.

Import Text Colors TextFacts.
Local Open Scope string_scope.

Lemma upper_has_no_lower (s : string) : has_lower (upper s) = false.
Proof.
  induction s as [|c s IH]; [reflexivity|]. simpl. rewrite IH, orb_false_r.
  unfold upper_char.
  destruct c as [[] [] [] [] [] [] [] []]; reflexivity.
Qed.

Lemma has_lower_differs (key name : string) :
  has_lower key = true -> has_lower name = false -> String.eqb key name = false.
Proof.
  intros Hk Hn. apply String.eqb_neq. intros ->. congruence.
Qed.

Lemma lookup_app {A : Type} (xs ys : list (string * A)) (name : string) :
  lookup (xs ++ ys) name =
  match lookup xs name with
  | Some v => Some v
  | None => lookup ys name
  end.
Proof.
  induction xs as [|[k v] xs IH]; simpl; [reflexivity|].
  destruct (String.eqb k name); [reflexivity | exact IH].
Qed.

Lemma lookup_none {A : Type} (table : list (string * A)) (name : string) :
  Forall (fun kv => String.eqb (fst kv) name = false) table ->
  lookup table name = None.
Proof.
  induction 1 as [|[k v] rest Hk _ IH]; simpl; [reflexivity|].
  simpl in Hk. rewrite Hk. exact IH.
Qed.

Lemma lookup_lower_none {A : Type} (table : list (string * A)) (name : string) :
  Forall (fun kv => has_lower (fst kv) = true) table ->
  has_lower name = false ->
  lookup table name = None.
Proof.
  intros Ht Hn. apply lookup_none.
  eapply Forall_impl; [|exact Ht]. intros kv Hk.
  exact (has_lower_differs _ _ Hk Hn).
Qed.

Lemma lookup_class_body_upper (name : string) :
  has_lower name = false ->
  lookup class_body name
  = option_map Str (lookup color_table name).
Proof.
  intros Hn. unfold class_body. rewrite lookup_app.
  assert (Hf : lookup
                 [("get_color", Function "get_color");
                  ("list_colors", Function "list_colors");
                  ("print_colored_text", Function "print_colored_text");
                  ("print_all_colors", Function "print_all_colors")] name = None).
  { apply lookup_lower_none; [repeat constructor | exact Hn]. }
  rewrite Hf. clear Hf.
  induction color_table as [|[k v] rest IH]; simpl; [reflexivity|].
  destruct (String.eqb k name); [reflexivity | exact IH].
Qed.

Lemma get_color_value (w : surroundings) (color_name : string) :
  python_names w ->
  get_color w color_name
  = Str match lookup color_table (upper color_name) with
        | Some code => code
        | None => RESET
        end.
Proof.
  intros [_ Hl]. unfold get_color, getattr.
  pose proof (upper_has_no_lower color_name) as Hu.
  apply Forall_app in Hl. destruct Hl as [Hm Hl].
  apply Forall_app in Hl. destruct Hl as [Hi Hr].
  rewrite lookup_app, (lookup_lower_none _ _ Hm Hu).
  rewrite lookup_app, (lookup_class_body_upper _ Hu).
  destruct (lookup color_table (upper color_name)); [reflexivity|]. simpl.
  rewrite lookup_app, (lookup_lower_none _ _ Hi Hu), (lookup_lower_none _ _ Hr Hu).
  reflexivity.
Qed.

(** X18: [get_color] never fails and never returns a function: in any letter
    case, the name of one of the eight colour attributes gives the code of
    that attribute, and every other name gives [RESET]. *)
Theorem get_color_is_a_code (w : surroundings) (color_name : string) :
  python_names w ->
  get_color w color_name
  = Str match lookup color_table (upper color_name) with
        | Some code => code
        | None => RESET
        end.
Proof. apply get_color_value. Qed.

Lemma sample_python_names : python_names sample_surroundings.
Proof. split; repeat constructor. Qed.

Lemma get_color_is_a_code_witness :
  get_color sample_surroundings "Magenta" = Str MAGENTA
  /\ get_color sample_surroundings "get_color" = Str RESET
  /\ get_color sample_surroundings "__doc__" = Str RESET.
Proof.
  rewrite !(get_color_is_a_code sample_surroundings _ sample_python_names).
  repeat split.
Defined.

(** ** [list_colors] and [print_all_colors] *)

Lemma insert_In (x y : string) (names : list string) :
  In x (insert y names) <-> x = y \/ In x names.
Proof.
  induction names as [|z names IH]; simpl; [intuition congruence|].
  destruct (String.leb y z); simpl; [intuition congruence|].
  rewrite IH. intuition congruence.
Qed.

Lemma sorted_In (x : string) (names : list string) :
  In x (sorted names) <-> In x names.
Proof.
  induction names as [|y names IH]; simpl; [tauto|].
  rewrite insert_In, IH. intuition congruence.
Qed.

Lemma insert_NoDup (y : string) (names : list string) :
  ~ In y names -> NoDup names -> NoDup (insert y names).
Proof.
  induction names as [|z names IH]; simpl; intros Hy Hn.
  - constructor; [intros [] | constructor].
  - destruct (String.leb y z).
    + constructor; [simpl; exact Hy | exact Hn].
    + inversion Hn; subst. constructor.
      * rewrite insert_In. intuition congruence.
      * apply IH; [tauto | assumption].
Qed.

Lemma sorted_NoDup (names : list string) : NoDup names -> NoDup (sorted names).
Proof.
  induction 1 as [|y names Hy _ IH]; simpl; [constructor|].
  apply insert_NoDup; [rewrite sorted_In; exact Hy | exact IH].
Qed.

Lemma lookup_dunder_none {A : Type} (table : list (string * A)) (name : string) :
  Forall (fun kv => prefix "__" (fst kv) = true) table ->
  prefix "__" name = false ->
  lookup table name = None.
Proof.
  intros Ht Hn. apply lookup_none.
  eapply Forall_impl; [|exact Ht]. intros kv Hk.
  cbv beta in Hk. apply String.eqb_neq. intros E. rewrite E in Hk. congruence.
Qed.

Lemma getattr_class_body (w : surroundings) (name : string) (a : attribute) :
  python_names w ->
  prefix "__" name = false ->
  lookup class_body name = Some a ->
  getattr w name = Some a.
Proof.
  intros [Hd _] Hn Hc. apply Forall_app in Hd. destruct Hd as [Hm _].
  unfold getattr.
  rewrite lookup_app, (lookup_dunder_none _ _ Hm Hn), lookup_app, Hc.
  reflexivity.
Qed.

Lemma is_color_of_listed (w : surroundings) (name : string) :
  python_names w ->
  In name (map fst (class_body ++ inherited w)%list) ->
  (is_color w name = true <-> In name (map fst color_table)).
Proof.
  intros Hw Hin. rewrite map_app, in_app_iff in Hin.
  destruct Hin as [Hin | Hin].
  - simpl in Hin.
    repeat (destruct Hin as [<- | Hin];
            [unfold is_color;
             erewrite getattr_class_body by (first [exact Hw | reflexivity]);
             simpl; split; [try discriminate; tauto | intuition discriminate]|]).
    contradiction Hin.
  - assert (Hp : prefix "__" name = true).
    { destruct Hw as [Hd _]. apply Forall_app in Hd. destruct Hd as [_ Hi].
      rewrite Forall_forall in Hi. apply in_map_iff in Hin.
      destruct Hin as (kv & <- & Hkv). exact (Hi kv Hkv). }
    split.
    + unfold is_color. destruct (getattr w name); [|discriminate].
      rewrite Hp, andb_false_r. discriminate.
    + simpl. intros H.
      repeat (destruct H as [<- | H]; [discriminate Hp|]). contradiction H.
Qed.

(** X19: [list_colors] returns the eight colour names, each once, and nothing
    else: no function of the class and no name beginning with two
    underscores.  For each of them [get_color] gives back the code bound to
    that very name, so every line of [print_all_colors] is printed in the
    colour it names and ends with [RESET]. *)
Theorem list_colors_are_the_colors (w : surroundings) :
  python_names w ->
  NoDup (list_colors w)
  /\ (forall name, In name (list_colors w) <-> In name (map fst color_table))
  /\ (forall name text,
        In name (list_colors w) ->
        exists code,
          lookup color_table name = Some code
          /\ get_color w name = Str code
          /\ print_colored_text w text name = Some (code ++ text ++ RESET))
  /\ List.length (print_all_colors w) = 8.
Proof.
  intros Hw.
  assert (Hin : forall name,
            In name (list_colors w) <-> In name (map fst color_table)).
  { intros name. unfold list_colors, dir.
    rewrite filter_In, sorted_In, nodup_In. split.
    - intros [Hl Hc]. exact (proj1 (is_color_of_listed w name Hw Hl) Hc).
    - intros Hn.
      assert (Hl : In name (map fst (class_body ++ inherited w)%list)).
      { rewrite map_app, in_app_iff. left. unfold class_body.
        rewrite map_app, in_app_iff. left. rewrite map_map. exact Hn. }
      split; [exact Hl | exact (proj2 (is_color_of_listed w name Hw Hl) Hn)]. }
  assert (Hnd : NoDup (list_colors w)).
  { unfold list_colors, dir.
    apply NoDup_filter, sorted_NoDup, NoDup_nodup. }
  split; [exact Hnd|]. split; [exact Hin|]. split.
  - intros name text Hn. apply (proj1 (Hin name)) in Hn. simpl in Hn.
    unfold print_colored_text.
    repeat (destruct Hn as [<- | Hn];
            [rewrite (get_color_value w _ Hw); eexists;
             split; [reflexivity | split; reflexivity]|]).
    contradiction Hn.
  - unfold print_all_colors. rewrite length_map.
    assert (Hc : NoDup (map fst color_table))
      by (repeat constructor; simpl; intuition discriminate).
    change 8 with (List.length (map fst color_table)).
    apply Nat.le_antisymm.
    + apply (NoDup_incl_length Hnd). intros name. exact (proj1 (Hin name)).
    + apply (NoDup_incl_length Hc). intros name. exact (proj2 (Hin name)).
Qed.

Lemma list_colors_are_the_colors_witness :
  list_colors sample_surroundings
  = ["BLUE"; "CYAN"; "GREEN"; "MAGENTA"; "ORANGE"; "RED"; "RESET"; "YELLOW"]
  /\ NoDup (list_colors sample_surroundings)
  /\ List.length (print_all_colors sample_surroundings) = 8.
Proof.
  split; [reflexivity|].
  destruct (list_colors_are_the_colors sample_surroundings sample_python_names)
    as (Hnd & _ & _ & Hlen).
  split; assumption.
Defined.

End ColorsFacts.
